(** * acre-cascade: the Lightning segmentation module [src/model.py]

    A shallow embedding of [SegModel] and [UNetSegModel]: the three step
    callbacks, the collation of the test outputs and the constructor, as
    programs of a state-and-exception monad over the module's attributes and
    a store of tensor objects.  The numerical framework (torch,
    pytorch_lightning, wandb) is an interface the development is parametric
    in. *)

From stdpp Require Import gmap strings list fin_maps.

(** ** The numerical framework, as an interface

    Everything the module calls but does not define.  Tensors, arrays and
    network modules are opaque; the operations are the ones [model.py]
    applies to them, under their Python names where Rocq allows it.  An
    operation is a function of the values of its arguments: it returns a
    result and updates none of them in place (the two in-place updates of
    [validation_step] are operations of the store, below), and the errors
    the framework raises on ill-shaped tensors are not modelled. *)

Class Torch : Type := {
  Tensor : Type;                       (* torch.Tensor *)
  NDArray : Type;                      (* numpy.ndarray *)
  PILImage : Type;                     (* PIL.Image.Image *)
  NNModule : Type;                     (* nn.Module: parameters and buffers *)
  Float : Type;                        (* Python float *)
  Labels : Type;                       (* type of src.data.CLASS_LABELS *)
  CLASS_LABELS : Labels;
  (* nn.Module.__call__: the output and the module after the call (buffers
     such as batch-norm statistics are updated by a forward pass) *)
  call_module : NNModule → Tensor → Tensor * NNModule;
  (* pl_examples.domain_templates.unet.UNet(num_classes, num_layers,
     features_start, bilinear) *)
  UNet : nat → nat → nat → bool → NNModule;
  (* x.float(), x.long(): the tensor itself when it already has the dtype,
     a converted copy otherwise *)
  is_float : Tensor → bool;
  to_float : Tensor → Tensor;
  is_long : Tensor → bool;
  to_long : Tensor → Tensor;
  (* iteration over the first dimension; len(x) is the number of items *)
  unbind : Tensor → list Tensor;
  argmax : nat → Tensor → Tensor;      (* x.argmax(dim=d) *)
  transpose : Tensor → Tensor;         (* x.t() *)
  squeeze : Tensor → Tensor;           (* x.squeeze() *)
  cpu : Tensor → Tensor;               (* x.cpu() *)
  detach : Tensor → Tensor;            (* x.detach() *)
  numpy : Tensor → NDArray;            (* x.numpy() *)
  new_zeros : Tensor → Tensor;         (* x.new_zeros(()) *)
  tensor_add : Tensor → Tensor → Tensor;     (* value of x after x += y *)
  tensor_div : Tensor → nat → Tensor;        (* value of x after x /= n *)
  (* pytorch_lightning.metrics.functional.iou(pred, target, ignore_index) *)
  iou : Tensor → Tensor → nat → Tensor;
  to_pil_image : Tensor → PILImage;    (* torchvision to_pil_image *)
}.

(** ** Data model *)

(** References into the store of tensor objects: the identity of a tensor. *)
Abbreviation ref := nat (only parsing).

(** Modelled from the spec: [TrainBatch] of [src/data.py], which is not part
    of the sources: a container holding an image tensor and a mask tensor. *)
Record TrainBatch := {
  image : ref;
  mask : ref;
}.

(** Modelled from the spec: [TestBatch] of [src/data.py], which is not part
    of the sources: an image tensor and the filename, team and crop of each
    sample of the batch. *)
Record TestBatch := {
  test_image : ref;
  filename : list string;
  team : list string;
  crop : list string;
}.

Section Model.
Context `{Torch}.

(** Values held by the dictionaries the module builds. *)
Inductive pyval :=
  | VStr (s : string)
  | VArray (a : NDArray).

(** Modelled from the spec: the [Submission] dataclass of
    [src/submission_generation.py], which is not part of the sources: the
    per-test-sample result (filename, team, crop, predicted mask). *)
Record Submission := {
  sub_filename : string;
  sub_team : string;
  sub_crop : string;
  sub_mask : NDArray;
}.

(** Modelled from the spec: [sample_to_submission] of
    [src/submission_generation.py], which is not part of the sources: it
    makes the submission record of one sample from its filename, team, crop
    and predicted mask. *)
Definition sample_to_submission (filename team_name crop_name : string)
    (mask : NDArray) : Submission :=
  {| sub_filename := filename; sub_team := team_name;
     sub_crop := crop_name; sub_mask := mask |}.

(** [dataclasses.asdict]: a new dictionary from field name to (a copy of) the
    field's value. *)
Definition asdict (s : Submission) : gmap string pyval :=
  <["filename" := VStr (sub_filename s)]>
  (<["team" := VStr (sub_team s)]>
  (<["crop" := VStr (sub_crop s)]>
  (<["mask" := VArray (sub_mask s)]> ∅))).

(** One entry of the [masks] argument of [wandb.Image]. *)
Record MaskEntry := {
  mask_data : NDArray;
  class_labels : Labels;
}.

(** [wandb.Image(data, masks=...)]. *)
Record WandbImage := {
  wandb_data : PILImage;
  wandb_masks : gmap string MaskEntry;
}.

(** Values of a dictionary handed to [self.logger.experiment.log]. *)
Inductive logval :=
  | LTensor (r : ref)
  | LImages (l : list WandbImage).

(** The module ([self]), the experiment logger the trainer attached to it,
    and the store of tensor objects. *)
Record State := {
  heap : list Tensor;
  learning_rate : Float;
  num_classes : nat;
  loss_fn : Tensor → Tensor → Tensor;
  T_max : nat;
  num_layers : nat;
  features_start : nat;
  bilinear : bool;
  net : NNModule;
  submission : option (gmap string (gmap string pyval));
  (* calls of self.log(name, value, prog_bar=True, logger=False) *)
  logged : list (string * ref);
  (* self.logger: None, or the dictionaries logged to its experiment *)
  logger : option (list (gmap string logval));
}.

Definition set_heap (h : list Tensor) (σ : State) : State :=
  {| heap := h; learning_rate := learning_rate σ; num_classes := num_classes σ;
     loss_fn := loss_fn σ; T_max := T_max σ; num_layers := num_layers σ;
     features_start := features_start σ; bilinear := bilinear σ; net := net σ;
     submission := submission σ; logged := logged σ; logger := logger σ |}.

Definition set_net (n : NNModule) (σ : State) : State :=
  {| heap := heap σ; learning_rate := learning_rate σ; num_classes := num_classes σ;
     loss_fn := loss_fn σ; T_max := T_max σ; num_layers := num_layers σ;
     features_start := features_start σ; bilinear := bilinear σ; net := n;
     submission := submission σ; logged := logged σ; logger := logger σ |}.

Definition set_submission (s : option (gmap string (gmap string pyval)))
    (σ : State) : State :=
  {| heap := heap σ; learning_rate := learning_rate σ; num_classes := num_classes σ;
     loss_fn := loss_fn σ; T_max := T_max σ; num_layers := num_layers σ;
     features_start := features_start σ; bilinear := bilinear σ; net := net σ;
     submission := s; logged := logged σ; logger := logger σ |}.

Definition set_logged (l : list (string * ref)) (σ : State) : State :=
  {| heap := heap σ; learning_rate := learning_rate σ; num_classes := num_classes σ;
     loss_fn := loss_fn σ; T_max := T_max σ; num_layers := num_layers σ;
     features_start := features_start σ; bilinear := bilinear σ; net := net σ;
     submission := submission σ; logged := l; logger := logger σ |}.

Definition set_logger (l : option (list (gmap string logval))) (σ : State) : State :=
  {| heap := heap σ; learning_rate := learning_rate σ; num_classes := num_classes σ;
     loss_fn := loss_fn σ; T_max := T_max σ; num_layers := num_layers σ;
     features_start := features_start σ; bilinear := bilinear σ; net := net σ;
     submission := submission σ; logged := logged σ; logger := l |}.

(** ** The monad of the callbacks: state and Python exceptions

    An exception leaves the state as it was when it was raised. *)

Inductive exn :=
  | IndexError          (* list index out of range *)
  | KeyError            (* dict.pop of a missing key *)
  | TypeError           (* unhashable dictionary key *)
  | NoSuchObject.       (* a reference that is not in the store *)

Definition M (A : Type) : Type := State → (exn + A) * State.

Definition ret {A} (a : A) : M A := λ σ, (inr a, σ).

Definition bind {A B} (k : A → M B) (m : M A) : M B :=
  λ σ, match m σ with
       | (inl e, σ') => (inl e, σ')
       | (inr a, σ') => k a σ'
       end.

#[global] Instance M_ret : MRet M := @ret.
#[global] Instance M_bind : MBind M := @bind.

Definition raise {A} (e : exn) : M A := λ σ, (inl e, σ).

Definition get {A} (f : State → A) : M A := λ σ, (inr (f σ), σ).

Definition modify (f : State → State) : M unit := λ σ, (inr (), f σ).

End Model.


(** ** [collections.ChainMap] over dictionaries with string keys *)

Section ChainMap.
Context {V : Type}.

(** The constructor: [self.maps = list(maps) or [{}]]. *)
Definition ChainMap (maps : list (gmap string V)) : list (gmap string V) :=
  match maps with
  | [] => [∅]
  | _ => maps
  end.

(** [ChainMap.__getitem__]: the first mapping that has the key answers. *)
Fixpoint ChainMap_getitem (maps : list (gmap string V)) (key : string) : option V :=
  match maps with
  | [] => None
  | mapping :: rest =>
      match mapping !! key with
      | Some v => Some v
      | None => ChainMap_getitem rest key
      end
  end.

(** [ChainMap.keys()]: the keys of all the mappings. *)
Definition ChainMap_keys (maps : list (gmap string V)) : gset string :=
  ⋃ (dom <$> maps).

(** [dict(chain_map)]: one entry [k: chain_map[k]] per key of the chain. *)
Definition dict_of_ChainMap (maps : list (gmap string V)) : gmap string V :=
  list_to_map
    (omap (λ k, pair k <$> ChainMap_getitem maps k) (elements (ChainMap_keys maps))).

End ChainMap.

(** ** The callbacks of [SegModel] *)

Section Callbacks.
Context `{Torch}.

(** *** Tensor objects in the store *)

Definition read (r : ref) : M Tensor :=
  λ σ, match heap σ !! r with
       | Some v => (inr v, σ)
       | None => (inl NoSuchObject, σ)
       end.

(** A new tensor object; its reference is the next free one. *)
Definition alloc (v : Tensor) : M ref :=
  λ σ, (inr (length (heap σ)), set_heap (heap σ ++ [v]) σ).

(** In-place update of the object [r]. *)
Definition write (r : ref) (v : Tensor) : M unit :=
  _ ← read r; modify (λ σ, set_heap (<[r := v]> (heap σ)) σ).

(** [x.float()] *)
Definition tensor_float (x : ref) : M ref :=
  v ← read x; if is_float v then mret x else alloc (to_float v).

(** [x.long()] *)
Definition tensor_long (x : ref) : M ref :=
  v ← read x; if is_long v then mret x else alloc (to_long v).

(** [x.argmax(dim=d)] *)
Definition tensor_argmax (d : nat) (x : ref) : M ref :=
  v ← read x; alloc (argmax d v).

(** [x += y] on a tensor [x]: in place. *)
Definition iadd (x : ref) (y : Tensor) : M unit :=
  v ← read x; write x (tensor_add v y).

(** [x /= n] on a tensor [x]: in place. *)
Definition idiv (x : ref) (n : nat) : M unit :=
  v ← read x; write x (tensor_div v n).

(** [l[i]] on a Python list. *)
Definition getitem {A} (l : list A) (i : nat) : M A :=
  match l !! i with
  | Some a => mret a
  | None => raise IndexError
  end.

(** [d.pop(key)]: the value and the dictionary without the key. *)
Definition dict_pop {A} (d : gmap string A) (key : string) : M (A * gmap string A) :=
  match d !! key with
  | Some v => mret (v, delete key d)
  | None => raise KeyError
  end.

(** *** [SegModel.forward], through [self(x)] *)
Definition forward (x : ref) : M ref :=
  v ← read x;
  n ← get net;
  _ ← modify (set_net (call_module n v).2);
  alloc (call_module n v).1.

(** [self.loss_fn(out, mask)] *)
Definition call_loss_fn (out mask : ref) : M ref :=
  vo ← read out;
  vm ← read mask;
  f ← get loss_fn;
  alloc (f vo vm).

(** [self.log(name, value, prog_bar=True, logger=False)] *)
Definition log (name : string) (value : ref) : M unit :=
  modify (λ σ, set_logged (logged σ ++ [(name, value)]) σ).

(** [self.logger.experiment.log(logging_dict)] *)
Definition experiment_log (logging_dict : gmap string logval) : M unit :=
  modify (λ σ, set_logger ((λ l, l ++ [logging_dict]) <$> logger σ) σ).

(** The [wandb.Image] both steps build for one sample (the key
    ["groud_truth"] is spelt as in the source). *)
Definition mask_img (_img _mask _out : Tensor) : WandbImage :=
  {| wandb_data := to_pil_image _img;
     wandb_masks :=
       <["predictions" := {| mask_data := numpy (cpu (argmax 0 _out));
                             class_labels := CLASS_LABELS |}]>
       (<["groud_truth" := {| mask_data := numpy (cpu (transpose _mask));
                              class_labels := CLASS_LABELS |}]> ∅) |}.

(** [zip(img, mask, out)] over three tensors. *)
Definition zip3 (img mask out : Tensor) : list (Tensor * (Tensor * Tensor)) :=
  zip (unbind img) (zip (unbind mask) (unbind out)).

(** One iteration of the loop of [training_step] over the samples: it
    appends to [mask_list] and stores the list under
    ["training/predictions"]. *)
Definition training_predictions_body
    (acc : list WandbImage * gmap string logval)
    (sample : Tensor * (Tensor * Tensor)) : list WandbImage * gmap string logval :=
  let '(mask_list, logging_dict) := acc in
  let '(_img, (_mask, _out)) := sample in
  let mask_list := mask_list ++ [mask_img _img _mask _out] in
  (mask_list, <["training/predictions" := LImages mask_list]> logging_dict).

(** The loop of [training_step], from [mask_list = []]. *)
Definition training_predictions (samples : list (Tensor * (Tensor * Tensor)))
    (logging_dict : gmap string logval) : gmap string logval :=
  (foldl training_predictions_body ([], logging_dict) samples).2.

(** The loop of [validation_step] over the samples: it appends to
    [mask_list]; the list is stored after the loop. *)
Definition validation_predictions (samples : list (Tensor * (Tensor * Tensor)))
    : list WandbImage :=
  foldl (λ mask_list '(_img, (_mask, _out)),
           mask_list ++ [mask_img _img _mask _out])
        [] samples.

(** *** [SegModel.training_step] *)
Definition training_step (batch : TrainBatch) (batch_index : nat) : M ref :=
  img ← tensor_float (image batch);
  mask ← tensor_long (mask batch);
  out ← forward img;
  loss ← call_loss_fn out mask;
  _ ← log "train_loss" loss;
  lg ← get logger;
  _ ← match lg with
      | Some _ =>
          let logging_dict : gmap string logval := {[ "training/loss" := LTensor loss ]} in
          logging_dict ←
            (if decide (batch_index mod 50 = 0) then
               vi ← read img;
               vm ← read mask;
               vo ← read out;
               mret (training_predictions (zip3 vi vm vo) logging_dict)
             else mret logging_dict);
          experiment_log logging_dict
      | None => mret ()
      end;
  mret loss.

(** The loop of [validation_step] that accumulates the per-sample IoU. *)
Fixpoint iou_loop (iou_score : ref) (samples : list (Tensor * Tensor)) : M unit :=
  match samples with
  | [] => mret ()
  | (_mask, _out) :: rest =>
      _ ← iadd iou_score (iou (argmax 0 _out) _mask 0);
      iou_loop iou_score rest
  end.

(** *** [SegModel.validation_step] *)
Definition validation_step (batch : TrainBatch) (batch_idx : nat) : M ref :=
  img ← tensor_float (image batch);
  mask ← tensor_long (mask batch);
  out ← forward img;
  loss ← call_loss_fn out mask;
  _ ← log "val_loss" loss;
  vm ← read mask;
  vo ← read out;
  iou_score ← alloc (new_zeros vo);
  _ ← iou_loop iou_score (zip (unbind vm) (unbind vo));
  _ ← idiv iou_score (length (unbind vo));
  _ ← log "iou" iou_score;
  lg ← get logger;
  _ ← match lg with
      | Some _ =>
          let logging_dict : gmap string logval := {[ "validation/loss" := LTensor loss ]} in
          let logging_dict := <["validation/iou" := LTensor iou_score]> logging_dict in
          logging_dict ←
            (if decide (batch_idx = 0) then
               vi ← read img;
               mret (<["validation/predictions" :=
                         LImages (validation_predictions (zip3 vi vm vo))]> logging_dict)
             else mret logging_dict);
          experiment_log logging_dict
      | None => mret ()
      end;
  mret loss.

(** *** [SegModel.test_step] *)
Definition test_step (batch : TestBatch) (batch_idx : nat)
    : M (gmap string (gmap string pyval)) :=
  out ← forward (test_image batch);
  predicted_mask ← tensor_argmax 1 out;
  filename_0 ← getitem (filename batch) 0;
  team_0 ← getitem (team batch) 0;
  crop_0 ← getitem (crop batch) 0;
  vp ← read predicted_mask;
  let submission_i :=
    sample_to_submission filename_0 team_0 crop_0 (numpy (detach (cpu (squeeze vp)))) in
  let submission_dict_i := asdict submission_i in
  popped ← dict_pop submission_dict_i "filename";
  match popped.1 with
  | VStr key => mret {[ key := popped.2 ]}
  | VArray _ => raise TypeError
  end.

(** *** [SegModel.test_epoch_end] *)
Definition test_epoch_end (outputs : list (gmap string (gmap string pyval))) : M unit :=
  modify (set_submission (Some (dict_of_ChainMap (ChainMap outputs)))).

(** A test pass as the trainer runs it: [test_step] on every batch in order,
    then [test_epoch_end] on the list of what the steps returned. *)
Fixpoint test_steps (batches : list TestBatch) (batch_idx : nat)
    : M (list (gmap string (gmap string pyval))) :=
  match batches with
  | [] => mret []
  | batch :: rest =>
      output ← test_step batch batch_idx;
      outputs ← test_steps rest (S batch_idx);
      mret (output :: outputs)
  end.

Definition test_pass (batches : list TestBatch) : M unit :=
  outputs ← test_steps batches 0;
  test_epoch_end outputs.

(** *** Construction *)

(** [UNetSegModel.build], on the attributes it reads. *)
Definition build (num_classes num_layers features_start : nat) (bilinear : bool)
    : NNModule :=
  UNet num_classes num_layers features_start bilinear.

(** [UNetSegModel.__init__] followed by [SegModel.__init__].  The store and
    the logger are the environment the trainer provides. *)
Definition UNetSegModel_init (num_classes num_layers features_start : nat)
    (bilinear : bool) (lr : Float) (loss_fn : Tensor → Tensor → Tensor)
    (T_max : nat) (store : list Tensor)
    (logger : option (list (gmap string logval))) : State :=
  {| heap := store;
     learning_rate := lr;
     num_classes := num_classes;
     loss_fn := loss_fn;
     T_max := T_max;
     num_layers := num_layers;
     features_start := features_start;
     bilinear := bilinear;
     net := build num_classes num_layers features_start bilinear;
     submission := None;
     logged := [];
     logger := logger |}.

End Callbacks.

(** ** The vocabulary of the properties *)

Section Specification.
Context `{Torch}.

(** *** Weakest preconditions

    [wp m Q E σ]: run from [σ], [m] either returns a value and a state that
    satisfy [Q], or raises and leaves a state that satisfies [E]. *)
Definition wp {A} (m : M A) (Q : A → State → Prop) (E : State → Prop)
    (σ : State) : Prop :=
  match m σ with
  | (inr a, σ') => Q a σ'
  | (inl _, σ') => E σ'
  end.

(** *** What the callbacks leave alone

    [inv h0 s0 σ]: the store of [σ] still holds every tensor object of [h0]
    with the value it has in [h0] (objects are only added after them), and
    [self.submission] is [s0]. *)
Definition inv (h0 : list Tensor)
    (s0 : option (gmap string (gmap string pyval))) (σ : State) : Prop :=
  h0 `prefix_of` heap σ ∧ submission σ = s0.

(** [keeps h0 s0 m P]: whatever [m] does, returning or raising, it
    maintains [inv h0 s0]; a value it returns satisfies [P]. *)
Definition keeps {A} (h0 : list Tensor)
    (s0 : option (gmap string (gmap string pyval)))
    (m : M A) (P : A → Prop) : Prop :=
  ∀ σ, inv h0 s0 σ → wp m (λ a σ', inv h0 s0 σ' ∧ P a) (inv h0 s0) σ.

(** *** What the callbacks compute *)

(** The value of [x.float()] and of [x.long()] for a tensor of value [v]. *)
Definition float_value (v : Tensor) : Tensor :=
  if is_float v then v else to_float v.

Definition long_value (v : Tensor) : Tensor :=
  if is_long v then v else to_long v.

(** The value of [iou_score] after the loop of [validation_step]. *)
Definition iou_sum (v0 : Tensor) (samples : list (Tensor * Tensor)) : Tensor :=
  foldl (λ acc '(_mask, _out), tensor_add acc (iou (argmax 0 _out) _mask 0))
        v0 samples.

(** What [training_step] and [validation_step] have done when they return
    [loss], run from [σ] on a batch whose image and mask hold [vi] and [vm]:
    one forward pass on the converted image, the loss of its output against
    the converted mask in a new tensor object, that object logged under
    [name], and one dictionary that maps [key] to it sent to the experiment
    logger when there is one. *)
Definition step_post (name key : string) (σ : State) (vi vm : Tensor)
    (loss : ref) (σ' : State) : Prop :=
  heap σ' !! loss
    = Some (loss_fn σ (call_module (net σ) (float_value vi)).1 (long_value vm)) ∧
  net σ' = (call_module (net σ) (float_value vi)).2 ∧
  (∃ more, logged σ' = logged σ ++ (name, loss) :: more) ∧
  match logger σ with
  | None => logger σ' = None
  | Some entries =>
      ∃ logging_dict, logger σ' = Some (entries ++ [logging_dict]) ∧
                      logging_dict !! key = Some (LTensor loss)
  end.

(** The score [validation_step] logs: the per-sample [iou] of the argmax of
    the output against the mask, summed from [new_zeros] over the zipped
    samples, divided by [len(out)]. *)
Definition iou_value (vi vm : Tensor) (σ : State) : Tensor :=
  let vo := (call_module (net σ) (float_value vi)).1 in
  tensor_div (iou_sum (new_zeros vo) (zip (unbind (long_value vm)) (unbind vo)))
             (length (unbind vo)).

(** The dictionary [test_step] stores under the filename: the fields of
    the submission record other than [filename]. *)
Definition test_record (team_0 crop_0 : string) (mask : NDArray)
    : gmap string pyval :=
  <["team" := VStr team_0]>
  (<["crop" := VStr crop_0]>
  (<["mask" := VArray mask]> ∅)).

(** The mask [test_step] hands to [sample_to_submission], for a network
    [n] and a batch image of value [vi]:
    [self(batch.image).argmax(dim=1).squeeze().cpu().detach().numpy()]. *)
Definition predicted_mask_of (n : NNModule) (vi : Tensor) : NDArray :=
  numpy (detach (cpu (squeeze (argmax 1 (call_module n vi).1)))).

(** A test batch the step can run on: its image is in the store and every
    metadata list has a first element. *)
Definition test_batch_ok (h : list Tensor) (batch : TestBatch) : Prop :=
  is_Some (h !! test_image batch) ∧
  is_Some (head (filename batch)) ∧
  is_Some (head (team batch)) ∧
  is_Some (head (crop batch)).

(** The step callbacks the trainer may run before the end of a test pass. *)
Inductive step_call :=
  | TrainingStep (batch : TrainBatch) (batch_index : nat)
  | ValidationStep (batch : TrainBatch) (batch_idx : nat)
  | TestStep (batch : TestBatch) (batch_idx : nat).

Definition run_step (call : step_call) (σ : State) : State :=
  match call with
  | TrainingStep batch batch_index => (training_step batch batch_index σ).2
  | ValidationStep batch batch_idx => (validation_step batch batch_idx σ).2
  | TestStep batch batch_idx => (test_step batch batch_idx σ).2
  end.

Definition run_steps (calls : list step_call) (σ : State) : State :=
  foldl (λ σ call, run_step call σ) σ calls.

End Specification.

(** ** A small instance of the framework, to run the callbacks on

    A tensor is a list of rows of integers: a batch is a list of samples, a
    sample the row of its class scores (one pixel), a mask one class index
    per sample.  The network returns its input and counts its forward
    passes. *)

Module Example.

Definition argmax_row (row : list Z) : Z :=
  (foldl (λ '(best, best_i, i) x,
            if decide (best < x)%Z then (x, i, (i + 1)%Z) else (best, best_i, (i + 1)%Z))
         (default 0%Z (head row), 0%Z, 0%Z) row).1.2.

Definition count_equal (a b : list (list Z)) : Z :=
  Z.of_nat (length (filter (λ p, p.1 = p.2) (zip a b))).

#[local] Instance torch : Torch := {|
  Tensor := list (list Z);
  NDArray := list (list Z);
  PILImage := list (list Z);
  NNModule := nat;
  Float := Z * Z;
  Labels := list string;
  CLASS_LABELS := ["background"; "crop"; "weed"];
  call_module n x := (x, S n);
  UNet _ _ _ _ := 0;
  is_float _ := false;
  to_float x := x;
  is_long _ := true;
  to_long x := x;
  unbind x := (λ row : list Z, [row]) <$> x;
  argmax _ x := (λ row : list Z, [argmax_row row]) <$> x;
  transpose x := x;
  squeeze x := x;
  cpu x := x;
  detach x := x;
  numpy x := x;
  new_zeros _ := [[0%Z]];
  tensor_add x y := zip_with (zip_with Z.add) x y;
  tensor_div x n := (λ row : list Z, (λ z, (z / Z.of_nat n)%Z) <$> row) <$> x;
  iou pred target _ := [[count_equal pred target]];
  to_pil_image x := x;
|}.

(** Object 0: the image of a batch of two samples; object 1: its mask;
    object 2: the image of a test batch of one sample. *)
Definition store : list Tensor :=
  [ [[1; 5; 2]; [7; 0; 3]] ; [[1]; [2]] ; [[0; 3; 9]] ]%Z.

Definition loss (out mask : Tensor) : Tensor :=
  [[(Z.of_nat (length out) - count_equal (argmax 1 out) mask)%Z]].

(** A module as constructed, with an experiment logger attached. *)
Definition model : State :=
  UNetSegModel_init 3 5 64 false (1, -3)%Z loss 10 store (Some []).

Definition train_batch : TrainBatch := {| image := 0; mask := 1 |}.

Definition test_batch (name : string) : TestBatch :=
  {| test_image := 2; filename := [name]; team := ["Bipbip"]; crop := ["Haricot"] |}.

(** A test batch of two samples. *)
Definition test_batch_2 : TestBatch :=
  {| test_image := 0;
     filename := ["a.png"; "b.png"];
     team := ["Bipbip"; "Bipbip"];
     crop := ["Haricot"; "Mais"] |}.

(** Outputs of three test steps; the first and the last are for the same
    file. *)
Definition output_a : gmap string (gmap string pyval) :=
  {[ "a.png" := test_record "Bipbip" "Haricot" [[1%Z]] ]}.

Definition output_b : gmap string (gmap string pyval) :=
  {[ "b.png" := test_record "Bipbip" "Mais" [[0%Z]] ]}.

Definition output_a_again : gmap string (gmap string pyval) :=
  {[ "a.png" := test_record "Roseau" "Mais" [[2%Z]] ]}.

End Example.

(** ** The optimizer interface and [configure_optimizers] *)

Class Optim `{Torch} : Type := {
  Params : Type;                       (* what module.parameters() yields *)
  Optimizer : Type;                    (* torch.optim.Optimizer *)
  LRScheduler : Type;                  (* torch.optim.lr_scheduler._LRScheduler *)
  module_parameters : NNModule → Params;      (* module.parameters() *)
  Adam : Params → Float → Optimizer;          (* Adam(params, lr=lr) *)
  (* CosineAnnealingLR(optimizer, T_max=t): the scheduler, and the
     optimizer as the constructor of the scheduler leaves it *)
  CosineAnnealingLR : Optimizer → nat → LRScheduler * Optimizer;
}.

Section Optimizers.
Context `{Optim}.

(** [SegModel.configure_optimizers] *)
Definition configure_optimizers : M (list Optimizer * list LRScheduler) :=
  n ← get net;
  lr ← get learning_rate;
  let opt := Adam (module_parameters n) lr in
  t ← get T_max;
  let sch_opt := CosineAnnealingLR opt t in
  mret ([sch_opt.2], [sch_opt.1]).

End Optimizers.

(** ** More vocabulary: what the steps log, write and read *)

Section MoreSpecification.
Context `{Torch}.

(** The attributes the constructor sets from its arguments. *)
Definition hyperparameters (σ : State) : Float * nat * nat * nat * nat * bool :=
  (learning_rate σ, num_classes σ, T_max σ, num_layers σ, features_start σ,
   bilinear σ).

(** The images the steps log for the zipped samples of a batch. *)
Definition sample_images (samples : list (Tensor * (Tensor * Tensor)))
    : list WandbImage :=
  (λ sample, mask_img sample.1 sample.2.1 sample.2.2) <$> samples.

(** The samples the logging loops of the steps run over, for a batch of
    image [vi] and mask [vm] and a network [n]. *)
Definition logged_samples (n : NNModule) (vi vm : Tensor)
    : list (Tensor * (Tensor * Tensor)) :=
  zip3 (float_value vi) (long_value vm) (call_module n (float_value vi)).1.

(** The dictionary [training_step] sends to the experiment logger. *)
Definition training_logging_dict (batch_index : nat) (loss : ref)
    (samples : list (Tensor * (Tensor * Tensor))) : gmap string logval :=
  if decide (batch_index mod 50 = 0 ∧ samples ≠ [])
  then <["training/predictions" := LImages (sample_images samples)]>
         {[ "training/loss" := LTensor loss ]}
  else {[ "training/loss" := LTensor loss ]}.

(** The dictionary [validation_step] sends to the experiment logger. *)
Definition validation_logging_dict (batch_idx : nat) (loss iou_score : ref)
    (samples : list (Tensor * (Tensor * Tensor))) : gmap string logval :=
  if decide (batch_idx = 0)
  then <["validation/predictions" := LImages (sample_images samples)]>
         (<["validation/iou" := LTensor iou_score]>
            {[ "validation/loss" := LTensor loss ]})
  else <["validation/iou" := LTensor iou_score]>
         {[ "validation/loss" := LTensor loss ]}.

(** The output of a test step for one entry: a dictionary of one key. *)
Definition single_entry (entry : string * gmap string pyval)
    : gmap string (gmap string pyval) :=
  {[ entry.1 := entry.2 ]}.

(** The first filenames of the batches that have one. *)
Definition first_filenames (batches : list TestBatch) : list string :=
  omap (λ batch, head (filename batch)) batches.

(** The network after one forward pass per batch, in order, on the images
    the batches have in the store [h]. *)
Definition net_after (h : list Tensor) (batches : list TestBatch)
    (n : NNModule) : NNModule :=
  foldl (λ n batch,
           match h !! test_image batch with
           | Some vi => (call_module n vi).2
           | None => n
           end) n batches.

(** The state [test_step] leaves, returning or raising, when the image of
    the batch has the value [vi]: the network after one forward pass, and
    two new tensor objects, the output and its argmax over dimension 1. *)
Definition after_test_step (vi : Tensor) (σ : State) : State :=
  set_heap ((heap σ ++ [(call_module (net σ) vi).1])
            ++ [argmax 1 (call_module (net σ) vi).1])
    (set_net (call_module (net σ) vi).2 σ).

(** What [test_step] returns or raises, for a network [n] and an image of
    value [vi]. *)
Definition test_step_result (batch : TestBatch) (n : NNModule) (vi : Tensor)
    : exn + gmap string (gmap string pyval) :=
  match head (filename batch), head (team batch), head (crop batch) with
  | Some filename_0, Some team_0, Some crop_0 =>
      inr {[ filename_0 := test_record team_0 crop_0 (predicted_mask_of n vi) ]}
  | _, _, _ => inl IndexError
  end.

(** [maintains I m]: whatever [m] does, returning or raising, a state that
    satisfies [I] before satisfies it after. *)
Definition maintains {A} (I : State → Prop) (m : M A) : Prop :=
  ∀ σ, I σ → I (m σ).2.

(** [ignores_submission m]: [m] runs the same whatever [self.submission]
    is, and leaves it as it is. *)
Definition ignores_submission {A} (m : M A) : Prop :=
  ∀ s σ, m (set_submission s σ) = ((m σ).1, set_submission s (m σ).2).

End MoreSpecification.

(** An instance of the optimizer interface over [Example.torch]: an
    optimizer is the parameters it updates and its learning rate, a
    scheduler its period. *)
Module ExampleOptim.

#[local] Existing Instance Example.torch.

#[local] Instance optim : Optim := {|
  Params := nat;
  Optimizer := nat * (Z * Z);
  LRScheduler := nat;
  module_parameters n := n;
  Adam params lr := (params, lr);
  CosineAnnealingLR opt t := (t, opt);
|}.

(** A test batch whose filename list is empty. *)
Definition empty_batch : TestBatch :=
  {| test_image := 2; filename := []; team := ["Bipbip"]; crop := ["Haricot"] |}.

(** The values of the image and of the mask of [Example.train_batch]. *)
Definition image_value : Tensor := [[1; 5; 2]; [7; 0; 3]]%Z.

Definition mask_value : Tensor := [[1]; [2]]%Z.

(** The entries of two test outputs. *)
Definition entry_a : string * gmap string pyval :=
  ("a.png", test_record "Bipbip" "Haricot" [[1%Z]]).

Definition entry_b : string * gmap string pyval :=
  ("b.png", test_record "Bipbip" "Mais" [[0%Z]]).

End ExampleOptim.

(** ** The rules of the weakest precondition *)

Section WP.
Context `{Torch}.

Lemma wp_ret {A} (a : A) Q E σ : Q a σ → wp (mret a) Q E σ.
Proof. done. Qed.

Lemma wp_raise {A} e (Q : A → State → Prop) E σ : E σ → wp (raise e) Q E σ.
Proof. done. Qed.

Lemma wp_bind {A B} (m : M A) (k : A → M B) Q E σ :
  wp m (λ a σ', wp (k a) Q E σ') E σ → wp (m ≫= k) Q E σ.
Proof.
  unfold wp, mbind, M_bind, bind. by destruct (m σ) as [[e|a] σ'].
Qed.

Lemma wp_mono {A} (m : M A) (Q Q' : A → State → Prop) (E E' : State → Prop) σ :
  (∀ a σ', Q a σ' → Q' a σ') → (∀ σ', E σ' → E' σ') →
  wp m Q E σ → wp m Q' E' σ.
Proof. unfold wp. destruct (m σ) as [[e|a] σ']; auto. Qed.

Lemma wp_get {A} (f : State → A) Q E σ : Q (f σ) σ → wp (get f) Q E σ.
Proof. done. Qed.

Lemma wp_modify f Q E σ : Q () (f σ) → wp (modify f) Q E σ.
Proof. done. Qed.

Lemma wp_read r Q E σ :
  match heap σ !! r with Some v => Q v σ | None => E σ end →
  wp (read r) Q E σ.
Proof. unfold wp, read. by destruct (heap σ !! r). Qed.

Lemma wp_alloc v Q E σ :
  Q (length (heap σ)) (set_heap (heap σ ++ [v]) σ) → wp (alloc v) Q E σ.
Proof. done. Qed.

Lemma wp_write r v Q E σ :
  match heap σ !! r with
  | Some _ => Q () (set_heap (<[r := v]> (heap σ)) σ)
  | None => E σ
  end →
  wp (write r v) Q E σ.
Proof.
  intros Hq. apply wp_bind, wp_read.
  destruct (heap σ !! r); [by apply wp_modify | done].
Qed.

Lemma wp_getitem {A} (l : list A) i Q E σ :
  match l !! i with Some a => Q a σ | None => E σ end →
  wp (getitem l i) Q E σ.
Proof. unfold getitem. by destruct (l !! i). Qed.

Lemma wp_dict_pop {A} (d : gmap string A) key Q E σ :
  match d !! key with Some v => Q (v, delete key d) σ | None => E σ end →
  wp (dict_pop d key) Q E σ.
Proof. unfold dict_pop. by destruct (d !! key). Qed.

(** What a run that satisfies a [wp] with an unsatisfiable exceptional
    postcondition looks like. *)
Lemma wp_returns {A} (m : M A) Q σ :
  wp m Q (λ _, False) σ → ∃ a σ', m σ = (inr a, σ') ∧ Q a σ'.
Proof. unfold wp. destruct (m σ) as [[e|a] σ']; [done | eauto]. Qed.

End WP.

(** ** The steps only add objects to the store and leave [self.submission] *)

Section Frame.
Context `{Torch}.
Variable h0 : list Tensor.
Variable s0 : option (gmap string (gmap string pyval)).

Local Abbreviation inv := (inv h0 s0).
Local Abbreviation keeps := (keeps h0 s0).

Lemma keeps_ret {A} (a : A) (P : A → Prop) : P a → keeps (mret a) P.
Proof. intros Hp σ Hi. by apply wp_ret. Qed.

Lemma keeps_raise {A} e (P : A → Prop) : keeps (raise e) P.
Proof. intros σ Hi. by apply wp_raise. Qed.

Lemma keeps_bind {A B} (m : M A) (k : A → M B) P P' :
  keeps m P → (∀ a, P a → keeps (k a) P') → keeps (m ≫= k) P'.
Proof.
  intros Hm Hk σ Hi. apply wp_bind.
  eapply wp_mono; [ | | by apply Hm]; cbn; [ | done].
  intros a σ' [Hi' Hp]. by apply Hk.
Qed.

Lemma keeps_weaken {A} (m : M A) (P P' : A → Prop) :
  (∀ a, P a → P' a) → keeps m P → keeps m P'.
Proof.
  intros Hpp Hm σ Hi. eapply wp_mono; [ | | by apply Hm]; cbn; [ | done].
  intros a σ' [? ?]. auto.
Qed.

Lemma keeps_get {A} (f : State → A) : keeps (get f) (λ _, True).
Proof. intros σ Hi. by apply wp_get. Qed.

Lemma keeps_modify f :
  (∀ σ, heap (f σ) = heap σ ∧ submission (f σ) = submission σ) →
  keeps (modify f) (λ _, True).
Proof.
  intros Hf σ [Hh Hs]. apply wp_modify. destruct (Hf σ) as [Hfh Hfs].
  unfold inv. by rewrite Hfh, Hfs.
Qed.

Lemma keeps_read r : keeps (read r) (λ _, True).
Proof. intros σ Hi. apply wp_read. by destruct (heap σ !! r). Qed.

(** A new object lies beyond the objects of [h0]. *)
Lemma keeps_alloc v : keeps (alloc v) (λ r, length h0 ≤ r).
Proof.
  intros σ [Hh Hs]. apply wp_alloc. repeat split; cbn.
  - by apply prefix_app_r.
  - done.
  - by apply prefix_length.
Qed.

Lemma prefix_insert_ge (h : list Tensor) r v :
  h0 `prefix_of` h → length h0 ≤ r → h0 `prefix_of` <[r := v]> h.
Proof.
  intros [k ->] Hr. exists (<[r - length h0 := v]> k).
  by rewrite insert_app_r_alt.
Qed.

(** An in-place update is harmless on an object beyond those of [h0]. *)
Lemma keeps_write r v : length h0 ≤ r → keeps (write r v) (λ _, True).
Proof.
  intros Hr σ [Hh Hs]. apply wp_write.
  destruct (heap σ !! r); [ | done].
  split; [split; cbn | done]; [by apply prefix_insert_ge | done].
Qed.

Lemma keeps_iadd r y : length h0 ≤ r → keeps (iadd r y) (λ _, True).
Proof.
  intros Hr. eapply keeps_bind; [apply keeps_read | ].
  intros v _. by apply keeps_write.
Qed.

Lemma keeps_idiv r n : length h0 ≤ r → keeps (idiv r n) (λ _, True).
Proof.
  intros Hr. eapply keeps_bind; [apply keeps_read | ].
  intros v _. by apply keeps_write.
Qed.

Lemma keeps_tensor_float x : keeps (tensor_float x) (λ _, True).
Proof.
  eapply keeps_bind; [apply keeps_read | ]. intros v _.
  destruct (is_float v); [by apply keeps_ret | ].
  eapply keeps_weaken; [ | apply keeps_alloc]. done.
Qed.

Lemma keeps_tensor_long x : keeps (tensor_long x) (λ _, True).
Proof.
  eapply keeps_bind; [apply keeps_read | ]. intros v _.
  destruct (is_long v); [by apply keeps_ret | ].
  eapply keeps_weaken; [ | apply keeps_alloc]. done.
Qed.

Lemma keeps_tensor_argmax d x : keeps (tensor_argmax d x) (λ _, True).
Proof.
  eapply keeps_bind; [apply keeps_read | ]. intros v _.
  eapply keeps_weaken; [ | apply keeps_alloc]. done.
Qed.

Lemma keeps_forward x : keeps (forward x) (λ _, True).
Proof.
  eapply keeps_bind; [apply keeps_read | ]. intros v _.
  eapply keeps_bind; [apply keeps_get | ]. intros n _.
  eapply keeps_bind; [by apply keeps_modify | ]. intros _ _.
  eapply keeps_weaken; [ | apply keeps_alloc]. done.
Qed.

Lemma keeps_call_loss_fn out mask : keeps (call_loss_fn out mask) (λ _, True).
Proof.
  eapply keeps_bind; [apply keeps_read | ]. intros vo _.
  eapply keeps_bind; [apply keeps_read | ]. intros vm _.
  eapply keeps_bind; [apply keeps_get | ]. intros f _.
  eapply keeps_weaken; [ | apply keeps_alloc]. done.
Qed.

Lemma keeps_log name value : keeps (log name value) (λ _, True).
Proof. by apply keeps_modify. Qed.

Lemma keeps_experiment_log d : keeps (experiment_log d) (λ _, True).
Proof. by apply keeps_modify. Qed.

Lemma keeps_getitem {A} (l : list A) i : keeps (getitem l i) (λ _, True).
Proof.
  unfold getitem. destruct (l !! i); [by apply keeps_ret | apply keeps_raise].
Qed.

Lemma keeps_dict_pop {A} (d : gmap string A) key :
  keeps (dict_pop d key) (λ _, True).
Proof.
  unfold dict_pop. destruct (d !! key); [by apply keeps_ret | apply keeps_raise].
Qed.

Lemma keeps_iou_loop r samples :
  length h0 ≤ r → keeps (iou_loop r samples) (λ _, True).
Proof.
  intros Hr. induction samples as [|[_mask _out] rest IH]; cbn.
  - by apply keeps_ret.
  - eapply keeps_bind; [by apply keeps_iadd | ]. intros _ _. apply IH.
Qed.

Lemma keeps_training_step batch batch_index :
  keeps (training_step batch batch_index) (λ _, True).
Proof.
  unfold training_step.
  eapply keeps_bind; [apply keeps_tensor_float | ]. intros img _.
  eapply keeps_bind; [apply keeps_tensor_long | ]. intros mask _.
  eapply keeps_bind; [apply keeps_forward | ]. intros out _.
  eapply keeps_bind; [apply keeps_call_loss_fn | ]. intros loss _.
  eapply keeps_bind; [apply keeps_log | ]. intros _ _.
  eapply keeps_bind; [apply keeps_get | ]. intros lg _.
  eapply (keeps_bind _ _ (λ _, True)); [ | intros _ _; by apply keeps_ret].
  destruct lg as [es|]; [ | by apply keeps_ret].
  eapply (keeps_bind _ _ (λ _, True)); [ | intros d _; apply keeps_experiment_log].
  case_decide; [ | by apply keeps_ret].
  eapply keeps_bind; [apply keeps_read | ]. intros vi _.
  eapply keeps_bind; [apply keeps_read | ]. intros vm _.
  eapply keeps_bind; [apply keeps_read | ]. intros vo _.
  by apply keeps_ret.
Qed.

Lemma keeps_validation_step batch batch_idx :
  keeps (validation_step batch batch_idx) (λ _, True).
Proof.
  unfold validation_step.
  eapply keeps_bind; [apply keeps_tensor_float | ]. intros img _.
  eapply keeps_bind; [apply keeps_tensor_long | ]. intros mask _.
  eapply keeps_bind; [apply keeps_forward | ]. intros out _.
  eapply keeps_bind; [apply keeps_call_loss_fn | ]. intros loss _.
  eapply keeps_bind; [apply keeps_log | ]. intros _ _.
  eapply keeps_bind; [apply keeps_read | ]. intros vm _.
  eapply keeps_bind; [apply keeps_read | ]. intros vo _.
  eapply keeps_bind; [apply keeps_alloc | ]. intros iou_score Hfresh.
  eapply keeps_bind; [by apply keeps_iou_loop | ]. intros _ _.
  eapply keeps_bind; [by apply keeps_idiv | ]. intros _ _.
  eapply keeps_bind; [apply keeps_log | ]. intros _ _.
  eapply keeps_bind; [apply keeps_get | ]. intros lg _.
  eapply (keeps_bind _ _ (λ _, True)); [ | intros _ _; by apply keeps_ret].
  destruct lg as [es|]; [ | by apply keeps_ret].
  eapply (keeps_bind _ _ (λ _, True)); [ | intros d _; apply keeps_experiment_log].
  case_decide; [ | by apply keeps_ret].
  eapply keeps_bind; [apply keeps_read | ]. intros vi _.
  by apply keeps_ret.
Qed.

Lemma keeps_test_step batch batch_idx :
  keeps (test_step batch batch_idx) (λ _, True).
Proof.
  unfold test_step.
  eapply keeps_bind; [apply keeps_forward | ]. intros out _.
  eapply keeps_bind; [apply keeps_tensor_argmax | ]. intros predicted_mask _.
  eapply keeps_bind; [apply keeps_getitem | ]. intros filename_0 _.
  eapply keeps_bind; [apply keeps_getitem | ]. intros team_0 _.
  eapply keeps_bind; [apply keeps_getitem | ]. intros crop_0 _.
  eapply keeps_bind; [apply keeps_read | ]. intros vp _.
  eapply keeps_bind; [apply keeps_dict_pop | ]. intros popped _.
  destruct (popped.1); [by apply keeps_ret | apply keeps_raise].
Qed.

End Frame.

(** After a run of a program that maintains the invariant, returning or
    raising: the store is the store before it followed by new objects, and
    [self.submission] is what it was. *)
Lemma keeps_run `{Torch} {A} (m : M A) (P : A → Prop) (σ : State) :
  keeps (heap σ) (submission σ) m P →
  heap σ `prefix_of` heap (m σ).2 ∧ submission (m σ).2 = submission σ.
Proof.
  intros Hm. assert (inv (heap σ) (submission σ) σ) as Hi by done.
  specialize (Hm σ Hi). unfold wp in Hm.
  destruct (m σ) as [[e|a] σ']; cbn; [done | by destruct Hm].
Qed.

(** ** Running the tensor operations *)

Section Results.
Context `{Torch}.

Lemma set_heap_id σ : set_heap (heap σ) σ = σ.
Proof. by destruct σ. Qed.

Lemma wp_read_Some r v Q E σ :
  heap σ !! r = Some v → Q v σ → wp (read r) Q E σ.
Proof. intros Hr Hq. apply wp_read. by rewrite Hr. Qed.

Lemma lookup_new (h : list Tensor) v : (h ++ [v]) !! length h = Some v.
Proof. by apply list_lookup_middle. Qed.

Lemma lookup_old (h k : list Tensor) r v :
  h !! r = Some v → (h ++ k) !! r = Some v.
Proof. apply lookup_app_l_Some. Qed.

(** [x.float()] returns an object of the converted value and only adds
    objects to the store. *)
Lemma wp_tensor_float x v Q E σ :
  heap σ !! x = Some v →
  (∀ r k, (heap σ ++ k) !! r = Some (float_value v) →
          Q r (set_heap (heap σ ++ k) σ)) →
  wp (tensor_float x) Q E σ.
Proof.
  intros Hx Hq. unfold tensor_float, float_value in *.
  apply wp_bind. eapply wp_read_Some; [done | ].
  destruct (is_float v).
  - apply wp_ret. specialize (Hq x []).
    rewrite app_nil_r, set_heap_id in Hq. by apply Hq.
  - apply wp_alloc, Hq, lookup_new.
Qed.

Lemma wp_tensor_long x v Q E σ :
  heap σ !! x = Some v →
  (∀ r k, (heap σ ++ k) !! r = Some (long_value v) →
          Q r (set_heap (heap σ ++ k) σ)) →
  wp (tensor_long x) Q E σ.
Proof.
  intros Hx Hq. unfold tensor_long, long_value in *.
  apply wp_bind. eapply wp_read_Some; [done | ].
  destruct (is_long v).
  - apply wp_ret. specialize (Hq x []).
    rewrite app_nil_r, set_heap_id in Hq. by apply Hq.
  - apply wp_alloc, Hq, lookup_new.
Qed.

Lemma wp_forward x v Q E σ :
  heap σ !! x = Some v →
  Q (length (heap σ))
    (set_heap (heap σ ++ [(call_module (net σ) v).1])
       (set_net (call_module (net σ) v).2 σ)) →
  wp (forward x) Q E σ.
Proof.
  intros Hx Hq. unfold forward.
  apply wp_bind. eapply wp_read_Some; [done | ].
  apply wp_bind, wp_get, wp_bind, wp_modify. by apply wp_alloc.
Qed.

Lemma wp_call_loss_fn out mask vo vm Q E σ :
  heap σ !! out = Some vo → heap σ !! mask = Some vm →
  Q (length (heap σ)) (set_heap (heap σ ++ [loss_fn σ vo vm]) σ) →
  wp (call_loss_fn out mask) Q E σ.
Proof.
  intros Ho Hm Hq. unfold call_loss_fn.
  apply wp_bind. eapply wp_read_Some; [done | ].
  apply wp_bind. eapply wp_read_Some; [done | ].
  apply wp_bind, wp_get. by apply wp_alloc.
Qed.

Lemma wp_tensor_argmax d x v Q E σ :
  heap σ !! x = Some v →
  Q (length (heap σ)) (set_heap (heap σ ++ [argmax d v]) σ) →
  wp (tensor_argmax d x) Q E σ.
Proof.
  intros Hx Hq. unfold tensor_argmax.
  apply wp_bind. eapply wp_read_Some; [done | ]. by apply wp_alloc.
Qed.

Lemma set_heap_set_heap h h' σ : set_heap h (set_heap h' σ) = set_heap h σ.
Proof. done. Qed.

Lemma iou_loop_run r samples v0 σ :
  heap σ !! r = Some v0 →
  iou_loop r samples σ
  = (inr (), set_heap (<[r := iou_sum v0 samples]> (heap σ)) σ).
Proof.
  revert v0 σ. induction samples as [|[_mask _out] rest IH]; intros v0 σ Hr; cbn.
  - by rewrite list_insert_id, set_heap_id.
  - unfold mbind, M_bind, bind, iadd, write, read, modify. cbn.
    unfold mbind, M_bind, bind. rewrite Hr. cbn. rewrite Hr.
    rewrite (IH (tensor_add v0 (iou (argmax 0 _out) _mask 0))); cbn.
    + by rewrite list_insert_insert_eq.
    + apply list_lookup_insert_eq. by eapply lookup_lt_Some.
Qed.

Lemma wp_iou_loop r samples v0 Q E σ :
  heap σ !! r = Some v0 →
  Q () (set_heap (<[r := iou_sum v0 samples]> (heap σ)) σ) →
  wp (iou_loop r samples) Q E σ.
Proof. intros Hr Hq. unfold wp. by rewrite (iou_loop_run _ _ v0). Qed.

Lemma wp_idiv r n v Q E σ :
  heap σ !! r = Some v →
  Q () (set_heap (<[r := tensor_div v n]> (heap σ)) σ) →
  wp (idiv r n) Q E σ.
Proof.
  intros Hr Hq. unfold idiv. apply wp_bind. eapply wp_read_Some; [done | ].
  apply wp_write. by rewrite Hr.
Qed.

End Results.

(** Simplification of the projections of a state, and lookups in a store
    that grew by appended and updated objects. *)
Ltac st :=
  cbn [heap net logged logger submission loss_fn set_heap set_net set_logged
       set_logger set_submission fst snd fmap option_fmap option_map].

Ltac lk :=
  st;
  repeat first
    [ eassumption
    | apply lookup_new
    | apply lookup_old
    | apply list_lookup_insert_eq; rewrite ?length_insert, ?length_app; cbn; lia
    | rewrite list_lookup_insert_ne by (rewrite ?length_app in *; cbn in *; lia) ].

(** ** Running the steps *)

Section Steps.
Context `{Torch}.

Lemma training_predictions_other samples logging_dict key :
  key ≠ "training/predictions" →
  training_predictions samples logging_dict !! key = logging_dict !! key.
Proof.
  intros Hk. unfold training_predictions.
  change logging_dict with (([] : list WandbImage, logging_dict).2) at 2.
  generalize (([] : list WandbImage), logging_dict) as acc.
  induction samples as [|[_img [_mask _out]] rest IH]; intros [ml d]; [done | ].
  cbn. rewrite IH. cbn. by rewrite lookup_insert_ne.
Qed.

(** [training_step] returns, and then [step_post] holds. *)
Lemma training_step_wp batch batch_index vi vm σ :
  heap σ !! image batch = Some vi →
  heap σ !! mask batch = Some vm →
  wp (training_step batch batch_index) (step_post "train_loss" "training/loss" σ vi vm)
     (λ _, False) σ.
Proof.
  intros Hi Hm. unfold training_step.
  apply wp_bind. eapply wp_tensor_float; [done | ]. intros img k1 Himg.
  apply wp_bind. eapply wp_tensor_long; [lk | ]. st. intros msk k2 Hmsk.
  apply wp_bind. eapply wp_forward; [lk | ]. st.
  apply wp_bind. eapply wp_call_loss_fn; [lk | lk | ]. st.
  apply wp_bind, wp_modify. st.
  apply wp_bind, wp_get. st.
  apply wp_bind.
  destruct (logger σ) as [entries|] eqn:Hlg.
  - apply wp_bind.
    case_decide.
    + apply wp_bind. eapply wp_read_Some; [lk | ].
      apply wp_bind. eapply wp_read_Some; [lk | ].
      apply wp_bind. eapply wp_read_Some; [lk | ].
      apply wp_ret, wp_modify, wp_ret. unfold step_post. st. rewrite Hlg. st.
      split_and!; [lk | done | by exists [] | ].
      eexists. split; [done | ]. rewrite training_predictions_other by done.
      by rewrite lookup_singleton_eq.
    + apply wp_ret, wp_modify, wp_ret. unfold step_post. st. rewrite Hlg. st.
      split_and!; [lk | done | by exists [] | ].
      eexists. split; [done | ]. by rewrite lookup_singleton_eq.
  - apply wp_ret, wp_ret. unfold step_post. st. rewrite Hlg.
    split_and!; [lk | done | by exists [] | done].
Qed.

(** [validation_step] returns, and then [step_post] holds and the tensor
    logged under ["iou"] has the value [iou_value]. *)
Lemma validation_step_wp batch batch_idx vi vm σ :
  heap σ !! image batch = Some vi →
  heap σ !! mask batch = Some vm →
  wp (validation_step batch batch_idx)
     (λ loss σ', step_post "val_loss" "validation/loss" σ vi vm loss σ' ∧
        ∃ iou_score, logged σ' = logged σ ++ [("val_loss", loss); ("iou", iou_score)] ∧
                     heap σ' !! iou_score = Some (iou_value vi vm σ))
     (λ _, False) σ.
Proof.
  intros Hi Hm. unfold validation_step.
  apply wp_bind. eapply wp_tensor_float; [done | ]. intros img k1 Himg.
  apply wp_bind. eapply wp_tensor_long; [lk | ]. st. intros msk k2 Hmsk.
  pose proof (lookup_lt_Some _ _ _ Himg) as Himg_lt.
  apply wp_bind. eapply wp_forward; [lk | ]. st.
  apply wp_bind. eapply wp_call_loss_fn; [lk | lk | ]. st.
  apply wp_bind, wp_modify. st.
  apply wp_bind. eapply wp_read_Some; [lk | ].
  apply wp_bind. eapply wp_read_Some; [lk | ].
  apply wp_bind, wp_alloc. st.
  apply wp_bind. eapply wp_iou_loop; [lk | ]. st.
  apply wp_bind. eapply wp_idiv; [lk | ]. st.
  apply wp_bind, wp_modify. st.
  apply wp_bind, wp_get. st.
  apply wp_bind.
  destruct (logger σ) as [entries|] eqn:Hlg.
  - apply wp_bind.
    case_decide.
    + apply wp_bind. eapply wp_read_Some; [lk | ].
      apply wp_ret, wp_modify, wp_ret. unfold step_post. st. rewrite Hlg. st.
      split_and!; [lk | done | eexists; by rewrite <- app_assoc | | ].
      * eexists. split; [done | ]. by simplify_map_eq.
      * eexists. split; [by rewrite <- app_assoc | lk].
    + apply wp_ret, wp_modify, wp_ret. unfold step_post. st. rewrite Hlg. st.
      split_and!; [lk | done | eexists; by rewrite <- app_assoc | | ].
      * eexists. split; [done | ]. by simplify_map_eq.
      * eexists. split; [by rewrite <- app_assoc | lk].
  - apply wp_ret, wp_ret. unfold step_post. st. rewrite Hlg.
    split_and!; [lk | done | eexists; by rewrite <- app_assoc | done | ].
    eexists. split; [by rewrite <- app_assoc | lk].
Qed.

End Steps.

(** ** Lemmas on [ChainMap] *)

Section ChainMapLemmas.
Context {V : Type}.
Implicit Types (maps before after : list (gmap string V)).
Implicit Types (mapping m : gmap string V) (key : string).

Lemma ChainMap_getitem_ChainMap maps key :
  ChainMap_getitem (ChainMap maps) key = ChainMap_getitem maps key.
Proof. by destruct maps. Qed.

Lemma ChainMap_keys_ChainMap maps : ChainMap_keys (ChainMap maps) = ChainMap_keys maps.
Proof.
  destruct maps; [ | done]. unfold ChainMap_keys. cbn.
  rewrite dom_empty_L. by rewrite union_empty_r_L.
Qed.

Lemma elem_of_ChainMap_keys maps key :
  key ∈ ChainMap_keys maps ↔ ∃ mapping, mapping ∈ maps ∧ is_Some (mapping !! key).
Proof.
  unfold ChainMap_keys. rewrite elem_of_union_list. split.
  - intros (X & HX & Hk). apply list_elem_of_fmap in HX as (mapping & -> & Hm).
    exists mapping. split; [done | ]. by apply elem_of_dom.
  - intros (mapping & Hm & Hk). exists (dom mapping). split.
    + apply list_elem_of_fmap. by exists mapping.
    + by apply elem_of_dom.
Qed.

(** A key of some mapping of the chain has a value in the chain. *)
Lemma ChainMap_getitem_is_Some maps key :
  is_Some (ChainMap_getitem maps key)
  ↔ ∃ mapping, mapping ∈ maps ∧ is_Some (mapping !! key).
Proof.
  induction maps as [|m rest IH]; cbn.
  - split; [by intros [? ?] | ]. intros (? & Hm & _). by apply not_elem_of_nil in Hm.
  - destruct (m !! key) as [v|] eqn:Hv.
    + split; [ | by eauto]. intros _. exists m. split; [by left | by eauto].
    + rewrite IH. split.
      * intros (m' & Hm' & Hk). exists m'. split; [by right | done].
      * intros (m' & Hm' & Hk). apply elem_of_cons in Hm' as [-> | Hm'].
        -- rewrite Hv in Hk. by destruct Hk.
        -- by exists m'.
Qed.

(** The earliest mapping that has the key answers. *)
Lemma ChainMap_getitem_first before mapping after key v :
  (∀ m, m ∈ before → m !! key = None) → mapping !! key = Some v →
  ChainMap_getitem (before ++ mapping :: after) key = Some v.
Proof.
  intros Hb Hv. induction before as [|m rest IH]; cbn.
  - by rewrite Hv.
  - rewrite (Hb m) by by left. apply IH. intros m' Hm'. apply Hb. by right.
Qed.

Lemma lookup_list_to_map_omap (f : string → option V) (l : list string) key :
  (list_to_map (omap (λ k, pair k <$> f k) l) : gmap string V) !! key
  = if decide (key ∈ l) then f key else None.
Proof.
  induction l as [|a l IH]; cbn.
  - rewrite lookup_empty. case_decide as Hk; [by apply not_elem_of_nil in Hk | done].
  - destruct (f a) as [v|] eqn:Hfa; cbn.
    + destruct (decide (a = key)) as [-> | Hne].
      * rewrite lookup_insert_eq. rewrite decide_True by by left. done.
      * rewrite lookup_insert_ne by done. rewrite IH.
        destruct (decide (key ∈ l)).
        -- rewrite decide_True by by right. done.
        -- rewrite decide_False; [done | ]. by intros [? | ?]%elem_of_cons.
    + rewrite IH. destruct (decide (a = key)) as [-> | Hne].
      * rewrite (decide_True (P := key ∈ key :: l)) by by left.
        by case_decide.
      * destruct (decide (key ∈ l)).
        -- rewrite decide_True by by right. done.
        -- rewrite decide_False; [done | ]. by intros [? | ?]%elem_of_cons.
Qed.

(** [dict(chain)[key]] is [chain[key]]. *)
Lemma lookup_dict_of_ChainMap maps key :
  dict_of_ChainMap maps !! key = ChainMap_getitem maps key.
Proof.
  unfold dict_of_ChainMap. rewrite lookup_list_to_map_omap.
  case_decide as Hk; [done | ].
  destruct (ChainMap_getitem maps key) as [v|] eqn:Hg; [ | done].
  exfalso. apply Hk, elem_of_elements, elem_of_ChainMap_keys.
  apply ChainMap_getitem_is_Some. by rewrite Hg.
Qed.

(** The keys of [dict(ChainMap of the maps)] are the keys of the maps. *)
Lemma dom_dict_of_ChainMap maps :
  dom (dict_of_ChainMap (ChainMap maps)) = ⋃ (dom <$> maps).
Proof.
  apply set_eq. intros key.
  rewrite elem_of_dom, lookup_dict_of_ChainMap, ChainMap_getitem_ChainMap.
  rewrite ChainMap_getitem_is_Some. symmetry. apply elem_of_ChainMap_keys.
Qed.

End ChainMapLemmas.

(** ** The test pass *)

Section TestPass.
Context `{Torch}.

Lemma asdict_lookup_filename s : asdict s !! "filename" = Some (VStr (sub_filename s)).
Proof. unfold asdict. by rewrite lookup_insert_eq. Qed.

Lemma asdict_delete_filename s :
  delete "filename" (asdict s) = test_record (sub_team s) (sub_crop s) (sub_mask s).
Proof.
  unfold asdict, test_record. rewrite delete_insert_eq.
  apply delete_id. by rewrite !lookup_insert_ne, lookup_empty.
Qed.

Lemma test_batch_ok_prefix h h' batch :
  h `prefix_of` h' → test_batch_ok h batch → test_batch_ok h' batch.
Proof.
  intros Hp ([vi Hvi] & ? & ? & ?). split; [ | done].
  exists vi. by eapply prefix_lookup_Some.
Qed.

(** [test_step] returns the one-entry dictionary of the first sample. *)
Lemma test_step_wp batch batch_idx vi filename_0 team_0 crop_0 σ :
  heap σ !! test_image batch = Some vi →
  head (filename batch) = Some filename_0 →
  head (team batch) = Some team_0 →
  head (crop batch) = Some crop_0 →
  wp (test_step batch batch_idx)
     (λ output σ',
        output = {[ filename_0 := test_record team_0 crop_0 (predicted_mask_of (net σ) vi) ]} ∧
        heap σ `prefix_of` heap σ' ∧
        net σ' = (call_module (net σ) vi).2 ∧
        submission σ' = submission σ)
     (λ _, False) σ.
Proof.
  intros Hvi Hf Ht Hc. unfold test_step.
  apply wp_bind. eapply wp_forward; [done | ]. st.
  apply wp_bind. eapply wp_tensor_argmax; [lk | ]. st.
  apply wp_bind, wp_getitem. rewrite <- head_lookup, Hf.
  apply wp_bind, wp_getitem. rewrite <- head_lookup, Ht.
  apply wp_bind, wp_getitem. rewrite <- head_lookup, Hc.
  apply wp_bind. eapply wp_read_Some; [lk | ].
  apply wp_bind, wp_dict_pop. rewrite asdict_lookup_filename. st.
  apply wp_ret. rewrite asdict_delete_filename. st.
  split_and!; [done | | done | done].
  by do 2 apply prefix_app_r.
Qed.

Lemma test_step_run batch batch_idx σ :
  test_batch_ok (heap σ) batch →
  ∃ filename_0 team_0 crop_0 mask σ',
    head (filename batch) = Some filename_0 ∧
    head (team batch) = Some team_0 ∧
    head (crop batch) = Some crop_0 ∧
    test_step batch batch_idx σ
    = (inr {[ filename_0 := test_record team_0 crop_0 mask ]}, σ') ∧
    heap σ `prefix_of` heap σ' ∧
    submission σ' = submission σ.
Proof.
  intros ([vi Hvi] & [f Hf] & [t Ht] & [c Hc]).
  destruct (wp_returns _ _ _ (test_step_wp batch batch_idx _ _ _ _ σ Hvi Hf Ht Hc))
    as (output & σ' & Hrun & -> & Hp & _ & Hs).
  by exists f, t, c, (predicted_mask_of (net σ) vi), σ'.
Qed.

(** The steps of a pass over [before ++ after] are the steps over [before]
    followed by the steps over [after]. *)
Lemma test_steps_app before after batch_idx σ :
  test_steps (before ++ after) batch_idx σ
  = match test_steps before batch_idx σ with
    | (inl e, σ1) => (inl e, σ1)
    | (inr outputs1, σ1) =>
        match test_steps after (batch_idx + length before) σ1 with
        | (inl e, σ2) => (inl e, σ2)
        | (inr outputs2, σ2) => (inr (outputs1 ++ outputs2), σ2)
        end
    end.
Proof.
  revert batch_idx σ. induction before as [|b rest IH]; intros batch_idx σ; cbn.
  - rewrite Nat.add_0_r. by destruct (test_steps after batch_idx σ) as [[e|o] σ2].
  - unfold mbind, M_bind, bind.
    destruct (test_step b batch_idx σ) as [[e|o] σ1]; [done | ].
    rewrite IH. replace (S batch_idx + length rest) with (batch_idx + S (length rest)) by lia.
    destruct (test_steps rest (S batch_idx) σ1) as [[e|o1] σ2]; [done | ].
    unfold mret, M_ret, ret.
    by destruct (test_steps after (batch_idx + S (length rest)) σ2) as [[e|o2] σ3].
Qed.

(** On batches it can run on, the pass returns one single-key dictionary
    per batch, under the first filename of the batch. *)
Lemma test_steps_run batches : ∀ batch_idx σ,
  Forall (test_batch_ok (heap σ)) batches →
  ∃ outputs σ',
    test_steps batches batch_idx σ = (inr outputs, σ') ∧
    heap σ `prefix_of` heap σ' ∧
    submission σ' = submission σ ∧
    Forall2 (λ batch (output : gmap string (gmap string pyval)),
               ∃ key, head (filename batch) = Some key ∧ dom output = {[ key ]})
            batches outputs.
Proof.
  induction batches as [|b rest IH]; intros batch_idx σ Hok; cbn.
  - exists [], σ. by split_and!.
  - apply Forall_cons in Hok as [Hb Hrest].
    destruct (test_step_run b batch_idx σ Hb)
      as (f & t & c & m & σ1 & Hf & _ & _ & Hrun & Hp1 & Hs1).
    destruct (IH (S batch_idx) σ1) as (outputs & σ2 & Hrun2 & Hp2 & Hs2 & Hall).
    { eapply Forall_impl; [done | ]. intros b'. by apply test_batch_ok_prefix. }
    exists ({[ f := test_record t c m ]} :: outputs), σ2.
    unfold mbind, M_bind, bind. rewrite Hrun, Hrun2.
    split_and!; [done | by etrans | congruence | ].
    constructor; [ | done]. exists f. split; [done | ]. by rewrite dom_singleton_L.
Qed.

End TestPass.

(** ** The properties of the specification *)

(** What a test pass collates, on batches the step can run on: the pass
    returns, and the submission has a key for exactly the first filenames of
    the batches. *)
Lemma test_pass_run `{Torch} (σ : State) (batches : list TestBatch) :
  Forall (test_batch_ok (heap σ)) batches →
  ∃ σ' collated,
    test_pass batches σ = (inr (), σ') ∧
    submission σ' = Some collated ∧
    ∀ key, is_Some (collated !! key)
           ↔ ∃ batch, batch ∈ batches ∧ head (filename batch) = Some key.
Proof.
  intros Hok.
  destruct (test_steps_run batches 0 σ Hok) as (outputs & σ1 & Hrun & _ & _ & Hall).
  eexists _, _. unfold test_pass, mbind, M_bind, bind. rewrite Hrun.
  split_and!; [done | done | ].
  intros key. rewrite <- elem_of_dom, dom_dict_of_ChainMap, elem_of_union_list.
  split.
  - intros (X & HX & Hk). apply list_elem_of_fmap in HX as (output & -> & Ho).
    apply list_elem_of_lookup in Ho as [i Ho].
    destruct (Forall2_lookup_r _ _ _ _ _ Hall Ho) as (batch & Hb & key' & Hhead & Hdom).
    exists batch. split; [by eapply list_elem_of_lookup_2 | ].
    rewrite Hdom in Hk. by apply elem_of_singleton in Hk as ->.
  - intros (batch & Hb & Hhead). apply list_elem_of_lookup in Hb as [i Hb].
    destruct (Forall2_lookup_l _ _ _ _ _ Hall Hb) as (output & Ho & key' & Hhead' & Hdom).
    exists (dom output). split.
    + apply list_elem_of_fmap. exists output. split; [done | by eapply list_elem_of_lookup_2].
    + rewrite Hdom. apply elem_of_singleton. congruence.
Qed.

(** C1, as the code has it.  After a test pass over batches the step can
    run on, [self.submission] has exactly one entry per unique first
    filename of a batch ([batch.filename[0]]): every first filename is a
    key, every key is one, and no key occurs twice.  When every batch holds
    one sample, these are the filenames that appear in the batches. *)
Theorem test_pass_one_entry_per_first_filename `{Torch} (σ : State)
    (batches : list TestBatch) :
  Forall (test_batch_ok (heap σ)) batches →
  ∃ σ' collated,
    test_pass batches σ = (inr (), σ') ∧
    submission σ' = Some collated ∧
    (∀ key, is_Some (collated !! key)
            ↔ ∃ batch, batch ∈ batches ∧ head (filename batch) = Some key) ∧
    NoDup (map_to_list collated).*1 ∧
    (Forall (λ batch, length (filename batch) = 1) batches →
     ∀ key, is_Some (collated !! key) ↔ key ∈ mjoin (filename <$> batches)).
Proof.
  intros Hok. destruct (test_pass_run σ batches Hok) as (σ' & collated & Hrun & Hs & Hkeys).
  exists σ', collated. split_and!; [done | done | done | apply NoDup_fst_map_to_list | ].
  intros Hone key. rewrite Hkeys, list_elem_of_join. split.
  - intros (batch & Hb & Hhead). exists (filename batch). split.
    + by apply head_Some_elem_of.
    + apply list_elem_of_fmap. by exists batch.
  - intros (names & Hk & Hn). apply list_elem_of_fmap in Hn as (batch & -> & Hb).
    exists batch. split; [done | ].
    rewrite Forall_forall in Hone. specialize (Hone batch Hb).
    destruct (filename batch) as [|name [|? ?]]; [done | | done].
    by apply list_elem_of_singleton in Hk as ->.
Qed.

Lemma test_pass_one_entry_per_first_filename_witness :
  ∃ σ' collated,
    test_pass [Example.test_batch "a.png"; Example.test_batch_2; Example.test_batch "c.png"]
      Example.model = (inr (), σ') ∧
    submission σ' = Some collated ∧
    (∀ key, is_Some (collated !! key)
            ↔ ∃ batch, batch ∈ [Example.test_batch "a.png"; Example.test_batch_2;
                                 Example.test_batch "c.png"] ∧
                       head (filename batch) = Some key) ∧
    NoDup (map_to_list collated).*1 ∧
    (Forall (λ batch, length (filename batch) = 1)
       [Example.test_batch "a.png"; Example.test_batch_2; Example.test_batch "c.png"] →
     ∀ key, is_Some (collated !! key)
            ↔ key ∈ mjoin (filename <$> [Example.test_batch "a.png"; Example.test_batch_2;
                                          Example.test_batch "c.png"])).
Proof.
  apply (test_pass_one_entry_per_first_filename Example.model
           [Example.test_batch "a.png"; Example.test_batch_2; Example.test_batch "c.png"]).
  repeat constructor; cbn; eauto.
Defined.

(** C1 as stated fails on a batch of two samples: the pass over the batch
    of [a.png] and [b.png] returns, [b.png] is a filename of the batch, and
    the submission has no entry for it. *)
Lemma second_filename_gets_no_entry :
  (test_pass [Example.test_batch_2] Example.model).1 = inr () ∧
  "b.png" ∈ mjoin (filename <$> [Example.test_batch_2]) ∧
  (submission (test_pass [Example.test_batch_2] Example.model).2
     ≫= λ collated, collated !! "b.png") = None ∧
  is_Some (submission (test_pass [Example.test_batch_2] Example.model).2
             ≫= λ collated, collated !! "a.png").
Proof.
  split_and!.
  - reflexivity.
  - cbn. set_solver.
  - reflexivity.
  - vm_compute. eauto.
Qed.

(** C2, as the code has it.  For a test batch whose first filename is not
    the first filename of an earlier batch of the pass, the submission maps
    [batch.filename[0]] to a dictionary of the team ([batch.team[0]]), the
    crop ([batch.crop[0]]) and the predicted mask; the filename is the key
    and is not a field of that dictionary: [test_step] pops it.  The mask is
    the argmax over the class dimension (1) of the output of the network, as
    it is when the step runs, on the image of the batch, squeezed and
    converted to an array. *)
Theorem test_pass_record `{Torch} (σ : State) (before after : list TestBatch)
    (batch : TestBatch) (vi : Tensor) (filename_0 team_0 crop_0 : string) :
  Forall (test_batch_ok (heap σ)) (before ++ batch :: after) →
  heap σ !! test_image batch = Some vi →
  head (filename batch) = Some filename_0 →
  head (team batch) = Some team_0 →
  head (crop batch) = Some crop_0 →
  (∀ earlier, earlier ∈ before → head (filename earlier) ≠ Some filename_0) →
  ∃ σ' collated record,
    test_pass (before ++ batch :: after) σ = (inr (), σ') ∧
    submission σ' = Some collated ∧
    collated !! filename_0 = Some record ∧
    dom record = {[ "team"; "crop"; "mask" ]} ∧
    record !! "filename" = None ∧
    record !! "team" = Some (VStr team_0) ∧
    record !! "crop" = Some (VStr crop_0) ∧
    record !! "mask"
      = Some (VArray (numpy (detach (cpu (squeeze (argmax 1
                (call_module (net (test_steps before 0 σ).2) vi).1)))))).
Proof.
  intros Hok Hvi Hf Ht Hc Hearlier.
  apply Forall_app in Hok as [Hbefore Hrest].
  apply Forall_cons in Hrest as [Hbatch Hafter].
  destruct (test_steps_run before 0 σ Hbefore) as (outputs1 & σ1 & Hrun1 & Hp1 & _ & Hall1).
  assert (heap σ1 !! test_image batch = Some vi) as Hvi1 by by eapply prefix_lookup_Some.
  destruct (wp_returns _ _ _
              (test_step_wp batch (0 + length before) vi _ _ _ σ1 Hvi1 Hf Ht Hc))
    as (output & σ2 & Hrun2 & -> & Hp2 & _ & _).
  destruct (test_steps_run after (S (0 + length before)) σ2)
    as (outputs3 & σ3 & Hrun3 & _ & _ & _).
  { eapply Forall_impl; [done | ]. intros b. apply test_batch_ok_prefix. by etrans. }
  eexists _, _, _. unfold test_pass, mbind, M_bind, bind.
  rewrite test_steps_app, Hrun1. cbn [test_steps]. unfold mbind, M_bind, bind.
  rewrite Hrun2, Hrun3. unfold mret, M_ret, ret.
  split_and!; [done | done | | | | | | ].
  - st. rewrite lookup_dict_of_ChainMap, ChainMap_getitem_ChainMap.
    apply ChainMap_getitem_first; [ | by apply lookup_singleton_eq].
    intros m Hm. apply list_elem_of_lookup in Hm as [i Hm].
    destruct (Forall2_lookup_r _ _ _ _ _ Hall1 Hm) as (earlier & He & key & Hhead & Hdom).
    apply not_elem_of_dom. rewrite Hdom. apply not_elem_of_singleton.
    intros ->. eapply Hearlier; [ | done]. by eapply list_elem_of_lookup_2.
  - unfold test_record. rewrite !dom_insert_L, dom_empty_L. set_solver.
  - done.
  - done.
  - done.
  - unfold test_record, predicted_mask_of.
    do 2 (rewrite lookup_insert_ne by done). by rewrite lookup_insert_eq.
Qed.

Lemma test_pass_record_witness :
  ∃ σ' collated record,
    test_pass ([Example.test_batch "a.png"] ++ Example.test_batch "c.png" ::
               [Example.test_batch_2; Example.test_batch "c.png"]) Example.model
    = (inr (), σ') ∧
    submission σ' = Some collated ∧
    collated !! "c.png" = Some record ∧
    dom record = {[ "team"; "crop"; "mask" ]} ∧
    record !! "filename" = None ∧
    record !! "team" = Some (VStr "Bipbip") ∧
    record !! "crop" = Some (VStr "Haricot") ∧
    record !! "mask" = Some (@VArray Example.torch [[2%Z]]).
Proof.
  apply (test_pass_record Example.model [Example.test_batch "a.png"]
           [Example.test_batch_2; Example.test_batch "c.png"]
           (Example.test_batch "c.png") [[0; 3; 9]]%Z "c.png" "Bipbip" "Haricot").
  - repeat constructor; cbn; eauto.
  - reflexivity.
  - reflexivity.
  - reflexivity.
  - reflexivity.
  - intros earlier Hin. apply list_elem_of_singleton in Hin as ->. discriminate.
Defined.

(** C2 as stated fails: after the pass over the batch of [c.png], the record
    stored under the filename has the team, the crop and the mask, and no
    filename. *)
Lemma stored_record_has_no_filename :
  (test_pass [Example.test_batch "c.png"] Example.model).1 = inr () ∧
  (submission (test_pass [Example.test_batch "c.png"] Example.model).2
     ≫= λ collated, collated !! "c.png")
  = Some (@test_record Example.torch "Bipbip" "Haricot" [[2%Z]]) ∧
  (submission (test_pass [Example.test_batch "c.png"] Example.model).2
     ≫= λ collated, collated !! "c.png"
     ≫= λ record, record !! "filename") = None.
Proof. split_and!; reflexivity. Qed.

(** C3. [training_step] is the forward pass of the image through the
    network, then the loss, then the optional logging: on a batch whose
    image and mask are in the store it returns a tensor whose value is
    [loss_fn(net(batch.image.float()), batch.mask.long())], after one forward
    pass of the network, one [self.log] of that tensor and, when a logger is
    attached, one dictionary holding it sent to the experiment logger
    ([step_post]); [validation_step] returns the same loss computed the same
    way on its batch. *)
Theorem steps_return_loss `{Torch} (σ : State) (batch : TrainBatch)
    (batch_index : nat) (vi vm : Tensor) :
  heap σ !! image batch = Some vi →
  heap σ !! mask batch = Some vm →
  (∃ loss σ',
     training_step batch batch_index σ = (inr loss, σ') ∧
     heap σ' !! loss
       = Some (loss_fn σ (call_module (net σ) (float_value vi)).1 (long_value vm)) ∧
     step_post "train_loss" "training/loss" σ vi vm loss σ') ∧
  (∃ loss σ',
     validation_step batch batch_index σ = (inr loss, σ') ∧
     heap σ' !! loss
       = Some (loss_fn σ (call_module (net σ) (float_value vi)).1 (long_value vm)) ∧
     step_post "val_loss" "validation/loss" σ vi vm loss σ').
Proof.
  intros Hi Hm. split.
  - destruct (wp_returns _ _ _ (training_step_wp batch batch_index vi vm σ Hi Hm))
      as (loss & σ' & Hrun & Hpost).
    exists loss, σ'. split_and!; [done | by destruct Hpost | done].
  - destruct (wp_returns _ _ _ (validation_step_wp batch batch_index vi vm σ Hi Hm))
      as (loss & σ' & Hrun & Hpost & _).
    exists loss, σ'. split_and!; [done | by destruct Hpost | done].
Qed.

Lemma steps_return_loss_witness :
  (∃ loss σ',
     training_step Example.train_batch 0 Example.model = (inr loss, σ') ∧
     heap σ' !! loss = Some [[1%Z]] ∧
     step_post "train_loss" "training/loss" Example.model
       [[1; 5; 2]; [7; 0; 3]]%Z [[1]; [2]]%Z loss σ') ∧
  (∃ loss σ',
     validation_step Example.train_batch 0 Example.model = (inr loss, σ') ∧
     heap σ' !! loss = Some [[1%Z]] ∧
     step_post "val_loss" "validation/loss" Example.model
       [[1; 5; 2]; [7; 0; 3]]%Z [[1]; [2]]%Z loss σ').
Proof.
  apply (steps_return_loss Example.model Example.train_batch 0
           [[1; 5; 2]; [7; 0; 3]]%Z [[1]; [2]]%Z); reflexivity.
Defined.

(** C4. On a batch whose image is in the store and whose filename, team
    and crop lists have first elements [filename_0], [team_0] and [crop_0],
    whatever follows them in the lists, [test_step] returns a dictionary
    with exactly one key, [filename_0] (that is [batch.filename[0]]), and
    the record under it holds the team [team_0], the crop [crop_0] and the
    predicted mask of the whole batch image and nothing else.  Only the
    first filename, team and crop are used: two batches with the same image
    that agree on the first elements of the three lists give the same
    run. *)
Theorem test_step_uses_first_sample `{Torch} (σ : State) (batch : TestBatch)
    (batch_idx : nat) (vi : Tensor) (filename_0 team_0 crop_0 : string) :
  heap σ !! test_image batch = Some vi →
  head (filename batch) = Some filename_0 →
  head (team batch) = Some team_0 →
  head (crop batch) = Some crop_0 →
  (∃ output σ',
     test_step batch batch_idx σ = (inr output, σ') ∧
     output
     = {[ filename_0 :=
            test_record team_0 crop_0
              (numpy (detach (cpu (squeeze
                 (argmax 1 (call_module (net σ) vi).1))))) ]} ∧
     (∀ key, is_Some (output !! key) ↔ key = filename_0) ∧
     size output = 1 ∧
     (∀ record, output !! filename_0 = Some record →
        record !! "team" = Some (VStr team_0) ∧
        record !! "crop" = Some (VStr crop_0) ∧
        record !! "mask"
          = Some (VArray (numpy (detach (cpu (squeeze
                    (argmax 1 (call_module (net σ) vi).1)))))) ∧
        dom record = {[ "team"; "crop"; "mask" ]})) ∧
  (∀ batch' : TestBatch,
     test_image batch' = test_image batch →
     head (filename batch') = Some filename_0 →
     head (team batch') = Some team_0 →
     head (crop batch') = Some crop_0 →
     test_step batch' batch_idx σ = test_step batch batch_idx σ).
Proof.
  intros Hvi Hf Ht Hc. split.
  - destruct (wp_returns _ _ _
                (test_step_wp batch batch_idx vi _ _ _ σ Hvi Hf Ht Hc))
      as (output & σ' & Hrun & -> & _).
    eexists _, σ'. unfold predicted_mask_of in *.
    split_and!; [done | done | | by rewrite map_size_singleton | ].
    + intros key. rewrite lookup_singleton_is_Some. by split.
    + intros record Hrec. rewrite lookup_singleton_eq in Hrec.
      injection Hrec as <-. unfold test_record. split_and!.
      * by rewrite lookup_insert_eq.
      * rewrite lookup_insert_ne by done. by rewrite lookup_insert_eq.
      * do 2 (rewrite lookup_insert_ne by done). by rewrite lookup_insert_eq.
      * rewrite !dom_insert_L, dom_empty_L. set_solver.
  - intros batch' Hi Hf' Ht' Hc'. unfold test_step, getitem.
    by rewrite <- !head_lookup, Hi, Hf, Ht, Hc, Hf', Ht', Hc'.
Qed.

Lemma test_step_uses_first_sample_witness :
  (∃ output σ',
     test_step Example.test_batch_2 0 Example.model = (inr output, σ') ∧
     output
     = {[ "a.png" := @test_record Example.torch "Bipbip" "Haricot" [[1]; [0]]%Z ]} ∧
     (∀ key, is_Some (output !! key) ↔ key = "a.png") ∧
     size output = 1 ∧
     (∀ record, output !! "a.png" = Some record →
        record !! "team" = Some (VStr "Bipbip") ∧
        record !! "crop" = Some (VStr "Haricot") ∧
        record !! "mask" = Some (@VArray Example.torch [[1]; [0]]%Z) ∧
        dom record = {[ "team"; "crop"; "mask" ]})) ∧
  (∀ batch' : TestBatch,
     test_image batch' = test_image Example.test_batch_2 →
     head (filename batch') = Some "a.png" →
     head (team batch') = Some "Bipbip" →
     head (crop batch') = Some "Haricot" →
     test_step batch' 0 Example.model = test_step Example.test_batch_2 0 Example.model).
Proof.
  apply (test_step_uses_first_sample Example.model Example.test_batch_2 0
           [[1; 5; 2]; [7; 0; 3]]%Z "a.png" "Bipbip" "Haricot"); reflexivity.
Defined.

(** C5. When several outputs of [test_step] have the same filename key,
    [test_epoch_end] keeps the record of the earliest of them in the list:
    the submission maps the key to the record of the first output that has
    it, whatever the later outputs hold. *)
Theorem test_epoch_end_keeps_earliest `{Torch} (σ : State)
    (before after : list (gmap string (gmap string pyval)))
    (output : gmap string (gmap string pyval)) (key : string)
    (record : gmap string pyval) :
  (∀ earlier, earlier ∈ before → earlier !! key = None) →
  output !! key = Some record →
  ∃ σ' collated,
    test_epoch_end (before ++ output :: after) σ = (inr (), σ') ∧
    submission σ' = Some collated ∧
    collated !! key = Some record.
Proof.
  intros Hb Ho. eexists _, _. split_and!; [done | done | ].
  rewrite lookup_dict_of_ChainMap, ChainMap_getitem_ChainMap.
  by apply ChainMap_getitem_first.
Qed.

Lemma test_epoch_end_keeps_earliest_witness :
  ∃ σ' collated,
    test_epoch_end
      ([Example.output_b] ++ Example.output_a :: [Example.output_a_again])
      Example.model = (inr (), σ') ∧
    submission σ' = Some collated ∧
    collated !! "a.png" = Example.output_a !! "a.png".
Proof.
  apply (test_epoch_end_keeps_earliest Example.model
           [Example.output_b] [Example.output_a_again] Example.output_a "a.png").
  - intros earlier Hin. apply list_elem_of_singleton in Hin as ->. reflexivity.
  - reflexivity.
Defined.

(** C9. The steps consume the batch read-only: after [training_step],
    [validation_step] and [test_step], returning or raising, the image and
    mask tensors of the batch hold the values they held before, as does
    every other tensor object that existed before the call: the store after
    the call is the store before it followed by the objects the step
    created.  (The batch itself and its metadata are immutable values of the
    model; the steps contain no assignment to them.) *)
Theorem steps_consume_batch_read_only `{Torch} (σ : State) (batch : TrainBatch)
    (test_batch : TestBatch) (batch_idx : nat) (vi vm vt : Tensor) :
  heap σ !! image batch = Some vi →
  heap σ !! mask batch = Some vm →
  heap σ !! test_image test_batch = Some vt →
  (let σ' := (training_step batch batch_idx σ).2 in
   heap σ' !! image batch = Some vi ∧ heap σ' !! mask batch = Some vm ∧
   heap σ `prefix_of` heap σ') ∧
  (let σ' := (validation_step batch batch_idx σ).2 in
   heap σ' !! image batch = Some vi ∧ heap σ' !! mask batch = Some vm ∧
   heap σ `prefix_of` heap σ') ∧
  (let σ' := (test_step test_batch batch_idx σ).2 in
   heap σ' !! test_image test_batch = Some vt ∧
   heap σ `prefix_of` heap σ').
Proof.
  intros Hi Hm Ht. split_and!.
  - destruct (keeps_run _ _ σ (keeps_training_step _ _ batch batch_idx)) as [Hp _].
    cbn. split_and!; [ | | done]; by eapply prefix_lookup_Some.
  - destruct (keeps_run _ _ σ (keeps_validation_step _ _ batch batch_idx)) as [Hp _].
    cbn. split_and!; [ | | done]; by eapply prefix_lookup_Some.
  - destruct (keeps_run _ _ σ (keeps_test_step _ _ test_batch batch_idx)) as [Hp _].
    cbn. split_and!; [ | done]; by eapply prefix_lookup_Some.
Qed.

Lemma steps_consume_batch_read_only_witness :
  (let σ' := (training_step Example.train_batch 0 Example.model).2 in
   heap σ' !! 0 = Some [[1; 5; 2]; [7; 0; 3]]%Z ∧ heap σ' !! 1 = Some [[1]; [2]]%Z ∧
   heap Example.model `prefix_of` heap σ') ∧
  (let σ' := (validation_step Example.train_batch 0 Example.model).2 in
   heap σ' !! 0 = Some [[1; 5; 2]; [7; 0; 3]]%Z ∧ heap σ' !! 1 = Some [[1]; [2]]%Z ∧
   heap Example.model `prefix_of` heap σ') ∧
  (let σ' := (test_step (Example.test_batch "c.png") 0 Example.model).2 in
   heap σ' !! 2 = Some [[0; 3; 9]]%Z ∧
   heap Example.model `prefix_of` heap σ').
Proof.
  apply (steps_consume_batch_read_only Example.model Example.train_batch
           (Example.test_batch "c.png") 0
           [[1; 5; 2]; [7; 0; 3]]%Z [[1]; [2]]%Z [[0; 3; 9]]%Z); reflexivity.
Defined.

(** C10. [self.submission] is [None] from construction until a test pass
    completes and is written only by [test_epoch_end]: the constructor sets
    it to [None]; no call of [training_step] or [validation_step] (nor of
    [test_step]), returning or raising, changes it, so that it is still
    [None] after any sequence of steps on the constructed module; and
    [test_epoch_end] sets it to the collated dictionary. *)
Theorem submission_written_only_by_test_epoch_end `{Torch} :
  (∀ num_classes num_layers features_start bilinear lr loss_fn T_max store logger,
     submission (UNetSegModel_init num_classes num_layers features_start bilinear
                   lr loss_fn T_max store logger) = None) ∧
  (∀ σ batch batch_index,
     submission (training_step batch batch_index σ).2 = submission σ) ∧
  (∀ σ batch batch_idx,
     submission (validation_step batch batch_idx σ).2 = submission σ) ∧
  (∀ σ batch batch_idx,
     submission (test_step batch batch_idx σ).2 = submission σ) ∧
  (∀ calls num_classes num_layers features_start bilinear lr loss_fn T_max store logger,
     submission (run_steps calls
                   (UNetSegModel_init num_classes num_layers features_start bilinear
                      lr loss_fn T_max store logger)) = None) ∧
  (∀ σ outputs,
     submission (test_epoch_end outputs σ).2
     = Some (dict_of_ChainMap (ChainMap outputs))).
Proof.
  assert (∀ call σ, submission (run_step call σ) = submission σ) as Hstep.
  { intros [batch i | batch i | batch i] σ; cbn.
    - by destruct (keeps_run _ _ σ (keeps_training_step _ _ batch i)).
    - by destruct (keeps_run _ _ σ (keeps_validation_step _ _ batch i)).
    - by destruct (keeps_run _ _ σ (keeps_test_step _ _ batch i)). }
  split_and!; [done | | | | | done].
  - intros σ batch i. apply (Hstep (TrainingStep batch i)).
  - intros σ batch i. apply (Hstep (ValidationStep batch i)).
  - intros σ batch i. apply (Hstep (TestStep batch i)).
  - intros calls nc nl fs bl lr lf tm store lg.
    generalize (UNetSegModel_init nc nl fs bl lr lf tm store lg) (eq_refl : submission (UNetSegModel_init nc nl fs bl lr lf tm store lg) = None).
    induction calls as [|call rest IH]; intros σ Hσ; [done | ].
    cbn. apply IH. by rewrite Hstep.
Qed.

(** ** Further properties of the collation *)

Section Collation.
Context {V : Type}.
Implicit Types (maps : list (gmap string V)) (key : string).

(** A lookup in the chain is a lookup in the left-biased union of the
    mappings. *)
Lemma ChainMap_getitem_union_list maps key :
  ChainMap_getitem maps key = (⋃ maps) !! key.
Proof.
  induction maps as [|m rest IH]; cbn.
  - by rewrite lookup_empty.
  - rewrite lookup_union, IH. destruct (m !! key) as [v|]; cbn.
    + by destruct ((⋃ rest) !! key).
    + by destruct ((⋃ rest) !! key).
Qed.

Lemma dict_of_ChainMap_union_list maps :
  dict_of_ChainMap (ChainMap maps) = ⋃ maps.
Proof.
  apply map_eq. intros key.
  by rewrite lookup_dict_of_ChainMap, ChainMap_getitem_ChainMap,
    ChainMap_getitem_union_list.
Qed.

(** The union of one-key dictionaries is the dictionary of the entries, the
    first entry of a key winning. *)
Lemma union_list_singletons (entries : list (string * V)) :
  ⋃ ((λ entry, {[ entry.1 := entry.2 ]}) <$> entries)
  = (list_to_map entries : gmap string V).
Proof.
  induction entries as [|[k v] rest IH]; [done | ].
  etrans; [ | symmetry; apply (insert_union_singleton_l (list_to_map rest) k v)].
  by rewrite <- IH.
Qed.

End Collation.

(** X3. [test_epoch_end] returns without raising, assigns to
    [self.submission] the left-biased union of the outputs (the empty
    dictionary, not [None], when there is no output) and writes nothing
    else. *)
Theorem test_epoch_end_is_union `{Torch} (σ : State)
    (outputs : list (gmap string (gmap string pyval))) :
  test_epoch_end outputs σ = (inr (), set_submission (Some (⋃ outputs)) σ) ∧
  test_epoch_end [] σ = (inr (), set_submission (Some ∅) σ).
Proof.
  unfold test_epoch_end, modify. split.
  - by rewrite dict_of_ChainMap_union_list.
  - by rewrite dict_of_ChainMap_union_list.
Qed.

(** X4. For outputs of one entry each with pairwise distinct filenames, the
    collation does not depend on the order of the outputs, and it is the
    dictionary of the entries. *)
Theorem test_epoch_end_order_irrelevant `{Torch} (σ : State)
    (entries entries' : list (string * gmap string pyval)) :
  NoDup entries.*1 →
  entries ≡ₚ entries' →
  test_epoch_end (single_entry <$> entries) σ
    = (inr (), set_submission (Some (list_to_map entries)) σ) ∧
  test_epoch_end (single_entry <$> entries') σ
    = test_epoch_end (single_entry <$> entries) σ.
Proof.
  intros Hnd Hperm. unfold test_epoch_end, modify, single_entry.
  rewrite !dict_of_ChainMap_union_list, !union_list_singletons.
  split; [done | ]. by rewrite (list_to_map_proper entries entries').
Qed.

Lemma test_epoch_end_order_irrelevant_witness :
  test_epoch_end (single_entry <$> [ExampleOptim.entry_a; ExampleOptim.entry_b])
    Example.model
    = (inr (), set_submission
                 (Some (list_to_map [ExampleOptim.entry_a; ExampleOptim.entry_b]))
                 Example.model) ∧
  test_epoch_end (single_entry <$> [ExampleOptim.entry_b; ExampleOptim.entry_a])
    Example.model
    = test_epoch_end (single_entry <$> [ExampleOptim.entry_a; ExampleOptim.entry_b])
        Example.model.
Proof.
  apply (test_epoch_end_order_irrelevant Example.model
           [ExampleOptim.entry_a; ExampleOptim.entry_b]
           [ExampleOptim.entry_b; ExampleOptim.entry_a]).
  - cbn. apply NoDup_cons. split; [ | apply NoDup_singleton].
    intros Hin. apply list_elem_of_singleton in Hin. discriminate.
  - apply perm_swap.
Defined.

(** ** Further properties of the test pass *)

Section TestPassMore.
Context `{Torch}.

(** The run of [test_step] on a batch whose image is in the store. *)
Lemma test_step_outcome batch batch_idx vi σ :
  heap σ !! test_image batch = Some vi →
  test_step batch batch_idx σ
  = (test_step_result batch (net σ) vi, after_test_step vi σ).
Proof.
  intros Hvi. unfold test_step, test_step_result, after_test_step.
  unfold forward, tensor_argmax, read, alloc, get, modify, getitem, dict_pop.
  unfold mbind, M_bind, bind. rewrite Hvi. st.
  rewrite lookup_new. st. rewrite <- !head_lookup.
  destruct (head (filename batch)) as [f|]; [ | done].
  destruct (head (team batch)) as [t|]; [ | done].
  destruct (head (crop batch)) as [c|]; [ | done].
  cbn -[asdict]. st. rewrite lookup_new. rewrite asdict_lookup_filename. st.
  by rewrite asdict_delete_filename.
Qed.

Lemma test_step_result_inl batch n vi :
  test_step_result batch n vi = inl IndexError
  ↔ filename batch = [] ∨ team batch = [] ∨ crop batch = [].
Proof.
  unfold test_step_result.
  destruct (filename batch), (team batch), (crop batch); cbn;
    (split;
     [ intros ?; first [by left | by right; left | by right; right]
     | intros [? | [? | ?]]; done ]).
Qed.

Lemma size_list_to_set_le (l : list string) :
  size (list_to_set l : gset string) ≤ length l ∧
  (size (list_to_set l : gset string) = length l ↔ NoDup l).
Proof.
  induction l as [|a l [IHle IHeq]]; cbn.
  - split; [done | ]. split; [intros _; apply NoDup_nil_2 | by rewrite size_empty].
  - destruct (decide (a ∈ l)) as [Hin | Hnin].
    + replace ({[a]} ∪ list_to_set l : gset string) with (list_to_set l : gset string)
        by (symmetry; by apply subseteq_union_1_L, singleton_subseteq_l,
                              elem_of_list_to_set).
      split; [lia | ]. split; [lia | ].
      intros Hnd. apply NoDup_cons in Hnd as [Hnin _]. done.
    + rewrite size_union by (apply disjoint_singleton_l; by rewrite elem_of_list_to_set).
      rewrite size_singleton.
      split; [lia | ]. rewrite NoDup_cons. split.
      * intros Hs. split; [done | ]. apply IHeq. lia.
      * intros [_ Hnd]. apply IHeq in Hnd. lia.
Qed.

Lemma first_filenames_ok h batches :
  Forall (test_batch_ok h) batches →
  length (first_filenames batches) = length batches.
Proof.
  induction 1 as [|b rest (_ & [f Hf] & _) _ IH]; [done | ].
  unfold first_filenames in *. cbn. rewrite Hf. cbn. by rewrite IH.
Qed.

Lemma elem_of_first_filenames batches key :
  key ∈ first_filenames batches
  ↔ ∃ batch, batch ∈ batches ∧ head (filename batch) = Some key.
Proof. unfold first_filenames. by rewrite list_elem_of_omap. Qed.

(** What a run of the test steps leaves, on batches it can run on. *)
Lemma test_steps_effects h0 batches : ∀ batch_idx σ,
  h0 `prefix_of` heap σ →
  Forall (test_batch_ok h0) batches →
  let σ' := (test_steps batches batch_idx σ).2 in
  net σ' = net_after h0 batches (net σ) ∧
  logged σ' = logged σ ∧
  logger σ' = logger σ ∧
  submission σ' = submission σ ∧
  hyperparameters σ' = hyperparameters σ ∧
  loss_fn σ' = loss_fn σ ∧
  h0 `prefix_of` heap σ'.
Proof.
  induction batches as [|b rest IH]; intros batch_idx σ Hp Hok; cbn.
  - by split_and!.
  - apply Forall_cons in Hok as [([vi Hvi] & [f Hf] & [t Ht] & [c Hc]) Hrest].
    assert (heap σ !! test_image b = Some vi) as Hvi' by by eapply prefix_lookup_Some.
    unfold mbind, M_bind, bind. rewrite (test_step_outcome b batch_idx vi σ Hvi').
    unfold test_step_result. rewrite Hf, Ht, Hc, Hvi.
    specialize (IH (S batch_idx) (after_test_step vi σ)).
    destruct IH as (Hn & Hl & Hlg & Hs & Hh & Hlf & Hp'); [ | done | ].
    { unfold after_test_step. st. by do 2 apply prefix_app_r. }
    destruct (test_steps rest (S batch_idx) (after_test_step vi σ)) as [[e|outputs] σ2];
      cbn in *; by split_and!.
Qed.

End TestPassMore.



(** X2. When a batch of a test pass has an empty filename, team or crop
    list (and the batches before it are batches the step can run on), the
    pass raises [IndexError]: [test_epoch_end] is not run and
    [self.submission] is what it was before the pass. *)
Theorem test_pass_aborts_on_empty_metadata `{Torch} (σ : State)
    (before after : list TestBatch) (batch : TestBatch) (vi : Tensor) :
  Forall (test_batch_ok (heap σ)) before →
  heap σ !! test_image batch = Some vi →
  filename batch = [] ∨ team batch = [] ∨ crop batch = [] →
  (test_pass (before ++ batch :: after) σ).1 = inl IndexError ∧
  submission (test_pass (before ++ batch :: after) σ).2 = submission σ.
Proof.
  intros Hbefore Hvi Hempty.
  destruct (test_steps_run before 0 σ Hbefore) as (outputs & σ1 & Hrun & Hp & Hs & _).
  assert (heap σ1 !! test_image batch = Some vi) as Hvi1 by by eapply prefix_lookup_Some.
  unfold test_pass, mbind, M_bind, bind. rewrite test_steps_app, Hrun.
  cbn [test_steps]. unfold mbind, M_bind, bind.
  rewrite (test_step_outcome batch _ vi σ1 Hvi1).
  apply (test_step_result_inl batch (net σ1) vi) in Hempty. rewrite Hempty.
  split; [done | ]. unfold after_test_step. by st.
Qed.

Lemma test_pass_aborts_on_empty_metadata_witness :
  (test_pass ([Example.test_batch "a.png"] ++ ExampleOptim.empty_batch ::
              [Example.test_batch "c.png"]) Example.model).1 = inl IndexError ∧
  submission (test_pass ([Example.test_batch "a.png"] ++ ExampleOptim.empty_batch ::
                         [Example.test_batch "c.png"]) Example.model).2
  = submission Example.model.
Proof.
  apply (test_pass_aborts_on_empty_metadata Example.model
           [Example.test_batch "a.png"] [Example.test_batch "c.png"]
           ExampleOptim.empty_batch [[0; 3; 9]]%Z).
  - repeat constructor; cbn; eauto.
  - reflexivity.
  - left. reflexivity.
Defined.

(** X5. After a test pass over batches the step can run on, the submission
    has at most as many entries as there were batches, and exactly as many
    if and only if the first filenames of the batches are pairwise
    distinct. *)
Theorem test_pass_size `{Torch} (σ : State) (batches : list TestBatch) :
  Forall (test_batch_ok (heap σ)) batches →
  ∃ σ' collated,
    test_pass batches σ = (inr (), σ') ∧
    submission σ' = Some collated ∧
    size collated ≤ length batches ∧
    (size collated = length batches ↔ NoDup (first_filenames batches)).
Proof.
  intros Hok. destruct (test_pass_run σ batches Hok) as (σ' & collated & Hrun & Hs & Hkeys).
  exists σ', collated. split; [done | ]. split; [done | ].
  assert (dom collated = list_to_set (first_filenames batches)) as Hdom.
  { apply set_eq. intros key.
    by rewrite elem_of_dom, Hkeys, elem_of_list_to_set, elem_of_first_filenames. }
  rewrite <- size_dom, Hdom, <- (first_filenames_ok _ _ Hok).
  apply size_list_to_set_le.
Qed.

Lemma test_pass_size_witness :
  ∃ σ' collated,
    test_pass [Example.test_batch "a.png"; Example.test_batch "c.png";
               Example.test_batch "a.png"] Example.model = (inr (), σ') ∧
    submission σ' = Some collated ∧
    size collated ≤ length [Example.test_batch "a.png"; Example.test_batch "c.png";
                            Example.test_batch "a.png"] ∧
    (size collated = length [Example.test_batch "a.png"; Example.test_batch "c.png";
                             Example.test_batch "a.png"]
     ↔ NoDup (first_filenames [Example.test_batch "a.png"; Example.test_batch "c.png";
                               Example.test_batch "a.png"])).
Proof.
  apply (test_pass_size Example.model
           [Example.test_batch "a.png"; Example.test_batch "c.png";
            Example.test_batch "a.png"]).
  repeat constructor; cbn; eauto.
Defined.

(** X11. A test pass over batches the step can run on runs one forward
    pass per batch, in the order of the batches; it logs nothing, neither
    through [self.log] nor to the experiment logger, and leaves every
    tensor that existed before it and the attributes set by the
    constructor, the loss function included. *)
Theorem test_pass_effects `{Torch} (σ : State) (batches : list TestBatch) :
  Forall (test_batch_ok (heap σ)) batches →
  let σ' := (test_pass batches σ).2 in
  net σ' = net_after (heap σ) batches (net σ) ∧
  heap σ `prefix_of` heap σ' ∧
  logged σ' = logged σ ∧
  logger σ' = logger σ ∧
  hyperparameters σ' = hyperparameters σ ∧
  loss_fn σ' = loss_fn σ.
Proof.
  intros Hok.
  destruct (test_steps_effects (heap σ) batches 0 σ) as (Hn & Hl & Hlg & _ & Hh & Hlf & Hp);
    [done | done | ].
  destruct (test_steps_run batches 0 σ Hok) as (outputs & σ1 & Hrun & _).
  unfold test_pass, mbind, M_bind, bind. rewrite Hrun in *. cbn in *.
  by split_and!.
Qed.

Lemma test_pass_effects_witness :
  let σ' := (test_pass [Example.test_batch "a.png"; Example.test_batch_2] Example.model).2 in
  net σ' = net_after (heap Example.model)
             [Example.test_batch "a.png"; Example.test_batch_2] (net Example.model) ∧
  heap Example.model `prefix_of` heap σ' ∧
  logged σ' = logged Example.model ∧
  logger σ' = logger Example.model ∧
  hyperparameters σ' = hyperparameters Example.model ∧
  loss_fn σ' = loss_fn Example.model.
Proof.
  apply (test_pass_effects Example.model
           [Example.test_batch "a.png"; Example.test_batch_2]).
  repeat constructor; cbn; eauto.
Defined.

(** ** Invariants of the callbacks

    The steps write the store, the network and the two logs, and nothing
    else: a property of the state that survives these four writes survives
    the steps. *)

Section Maintains.
Context `{Torch}.
Variable I : State → Prop.
Hypothesis I_heap : ∀ σ h, I σ → I (set_heap h σ).
Hypothesis I_net : ∀ σ n, I σ → I (set_net n σ).
Hypothesis I_logged : ∀ σ l, I σ → I (set_logged l σ).
Hypothesis I_logger : ∀ σ l, I σ → I (set_logger l σ).

Lemma maintains_ret {A} (a : A) : maintains I (mret a).
Proof. by intros σ Hi. Qed.

Lemma maintains_raise {A} e : maintains I (raise e : M A).
Proof. by intros σ Hi. Qed.

Lemma maintains_bind {A B} (m : M A) (k : A → M B) :
  maintains I m → (∀ a, maintains I (k a)) → maintains I (m ≫= k).
Proof.
  intros Hm Hk σ Hi. specialize (Hm σ Hi).
  unfold mbind, M_bind, bind. destruct (m σ) as [[e|a] σ']; [done | by apply Hk].
Qed.

Lemma maintains_get {A} (f : State → A) : maintains I (get f).
Proof. by intros σ Hi. Qed.

Lemma maintains_read r : maintains I (read r).
Proof. intros σ Hi. unfold read. by destruct (heap σ !! r). Qed.

Lemma maintains_alloc v : maintains I (alloc v).
Proof. intros σ Hi. by apply I_heap. Qed.

Lemma maintains_write r v : maintains I (write r v).
Proof.
  apply maintains_bind; [apply maintains_read | ].
  intros _ σ Hi. by apply I_heap.
Qed.

Lemma maintains_iadd r y : maintains I (iadd r y).
Proof.
  apply maintains_bind; [apply maintains_read | intros v; apply maintains_write].
Qed.

Lemma maintains_idiv r n : maintains I (idiv r n).
Proof.
  apply maintains_bind; [apply maintains_read | intros v; apply maintains_write].
Qed.

Lemma maintains_tensor_float x : maintains I (tensor_float x).
Proof.
  apply maintains_bind; [apply maintains_read | ]. intros v.
  destruct (is_float v); [apply maintains_ret | apply maintains_alloc].
Qed.

Lemma maintains_tensor_long x : maintains I (tensor_long x).
Proof.
  apply maintains_bind; [apply maintains_read | ]. intros v.
  destruct (is_long v); [apply maintains_ret | apply maintains_alloc].
Qed.

Lemma maintains_tensor_argmax d x : maintains I (tensor_argmax d x).
Proof.
  apply maintains_bind; [apply maintains_read | intros v; apply maintains_alloc].
Qed.

Lemma maintains_forward x : maintains I (forward x).
Proof.
  apply maintains_bind; [apply maintains_read | ]. intros v.
  apply maintains_bind; [apply maintains_get | ]. intros n.
  apply maintains_bind; [ | intros _; apply maintains_alloc].
  intros σ Hi. by apply I_net.
Qed.

Lemma maintains_call_loss_fn out mask : maintains I (call_loss_fn out mask).
Proof.
  apply maintains_bind; [apply maintains_read | ]. intros vo.
  apply maintains_bind; [apply maintains_read | ]. intros vm.
  apply maintains_bind; [apply maintains_get | intros f; apply maintains_alloc].
Qed.

Lemma maintains_log name value : maintains I (log name value).
Proof. intros σ Hi. by apply I_logged. Qed.

Lemma maintains_experiment_log d : maintains I (experiment_log d).
Proof. intros σ Hi. by apply I_logger. Qed.

Lemma maintains_getitem {A} (l : list A) i : maintains I (getitem l i).
Proof.
  unfold getitem. destruct (l !! i); [apply maintains_ret | apply maintains_raise].
Qed.

Lemma maintains_dict_pop {A} (d : gmap string A) key : maintains I (dict_pop d key).
Proof.
  unfold dict_pop. destruct (d !! key); [apply maintains_ret | apply maintains_raise].
Qed.

Lemma maintains_iou_loop r samples : maintains I (iou_loop r samples).
Proof.
  induction samples as [|[_mask _out] rest IH]; cbn; [apply maintains_ret | ].
  apply maintains_bind; [apply maintains_iadd | by intros _].
Qed.

Lemma maintains_training_step batch batch_index :
  maintains I (training_step batch batch_index).
Proof.
  unfold training_step.
  apply maintains_bind; [apply maintains_tensor_float | ]. intros img.
  apply maintains_bind; [apply maintains_tensor_long | ]. intros mask.
  apply maintains_bind; [apply maintains_forward | ]. intros out.
  apply maintains_bind; [apply maintains_call_loss_fn | ]. intros loss.
  apply maintains_bind; [apply maintains_log | ]. intros _.
  apply maintains_bind; [apply maintains_get | ]. intros lg.
  apply maintains_bind; [ | intros _; apply maintains_ret].
  destruct lg as [entries|]; [ | apply maintains_ret].
  apply maintains_bind; [ | intros d; apply maintains_experiment_log].
  case_decide; [ | apply maintains_ret].
  apply maintains_bind; [apply maintains_read | ]. intros vi.
  apply maintains_bind; [apply maintains_read | ]. intros vm.
  apply maintains_bind; [apply maintains_read | ]. intros vo.
  apply maintains_ret.
Qed.

Lemma maintains_validation_step batch batch_idx :
  maintains I (validation_step batch batch_idx).
Proof.
  unfold validation_step.
  apply maintains_bind; [apply maintains_tensor_float | ]. intros img.
  apply maintains_bind; [apply maintains_tensor_long | ]. intros mask.
  apply maintains_bind; [apply maintains_forward | ]. intros out.
  apply maintains_bind; [apply maintains_call_loss_fn | ]. intros loss.
  apply maintains_bind; [apply maintains_log | ]. intros _.
  apply maintains_bind; [apply maintains_read | ]. intros vm.
  apply maintains_bind; [apply maintains_read | ]. intros vo.
  apply maintains_bind; [apply maintains_alloc | ]. intros iou_score.
  apply maintains_bind; [apply maintains_iou_loop | ]. intros _.
  apply maintains_bind; [apply maintains_idiv | ]. intros _.
  apply maintains_bind; [apply maintains_log | ]. intros _.
  apply maintains_bind; [apply maintains_get | ]. intros lg.
  apply maintains_bind; [ | intros _; apply maintains_ret].
  destruct lg as [entries|]; [ | apply maintains_ret].
  apply maintains_bind; [ | intros d; apply maintains_experiment_log].
  case_decide; [ | apply maintains_ret].
  apply maintains_bind; [apply maintains_read | ]. intros vi.
  apply maintains_ret.
Qed.

Lemma maintains_test_step batch batch_idx :
  maintains I (test_step batch batch_idx).
Proof.
  unfold test_step.
  apply maintains_bind; [apply maintains_forward | ]. intros out.
  apply maintains_bind; [apply maintains_tensor_argmax | ]. intros predicted_mask.
  apply maintains_bind; [apply maintains_getitem | ]. intros filename_0.
  apply maintains_bind; [apply maintains_getitem | ]. intros team_0.
  apply maintains_bind; [apply maintains_getitem | ]. intros crop_0.
  apply maintains_bind; [apply maintains_read | ]. intros vp.
  apply maintains_bind; [apply maintains_dict_pop | ]. intros popped.
  destruct (popped.1); [apply maintains_ret | apply maintains_raise].
Qed.

Lemma maintains_run_steps calls σ : I σ → I (run_steps calls σ).
Proof.
  revert σ. induction calls as [|call rest IH]; intros σ Hi; [done | ].
  cbn. apply IH. destruct call as [batch i | batch i | batch i]; cbn.
  - by apply maintains_training_step.
  - by apply maintains_validation_step.
  - by apply maintains_test_step.
Qed.

End Maintains.

(** The attributes set by the constructor survive any sequence of steps. *)
Lemma run_steps_hyperparameters `{Torch} calls σ :
  hyperparameters (run_steps calls σ) = hyperparameters σ ∧
  loss_fn (run_steps calls σ) = loss_fn σ.
Proof.
  apply (maintains_run_steps
           (λ σ', hyperparameters σ' = hyperparameters σ ∧ loss_fn σ' = loss_fn σ));
    done.
Qed.

(** X9. No callback writes the attributes the constructor sets from its
    arguments: after any sequence of training, validation and test steps,
    returning or raising, and after [test_epoch_end], the learning rate, the
    number of classes, [T_max], the number of layers, the number of
    starting features, the bilinear flag and the loss function are what
    they were; on a constructed module, the arguments of the constructor. *)
Theorem hyperparameters_never_written `{Torch} :
  (∀ calls σ,
     hyperparameters (run_steps calls σ) = hyperparameters σ ∧
     loss_fn (run_steps calls σ) = loss_fn σ) ∧
  (∀ outputs σ,
     hyperparameters (test_epoch_end outputs σ).2 = hyperparameters σ ∧
     loss_fn (test_epoch_end outputs σ).2 = loss_fn σ) ∧
  (∀ calls num_classes num_layers features_start bilinear lr loss_fn' T_max store logger,
     let σ := run_steps calls
                (UNetSegModel_init num_classes num_layers features_start bilinear
                   lr loss_fn' T_max store logger) in
     hyperparameters σ
       = (lr, num_classes, T_max, num_layers, features_start, bilinear) ∧
     loss_fn σ = loss_fn').
Proof.
  split_and!.
  - intros calls σ. apply run_steps_hyperparameters.
  - done.
  - intros calls nc nl fs bl lr lf tm store lg. cbn.
    by destruct (run_steps_hyperparameters calls
                   (UNetSegModel_init nc nl fs bl lr lf tm store lg)) as [-> ->].
Qed.

(** X10. [configure_optimizers], called on a constructed module after any
    sequence of steps, returns exactly one optimizer and one scheduler:
    Adam over the parameters of the network as it is then, with the learning
    rate given to the constructor, and the cosine-annealing scheduler made
    of that optimizer with the [T_max] given to the constructor; it does not
    raise and leaves the module as it is.  Before any step the network is
    the U-Net built from the constructor's arguments. *)
Theorem configure_optimizers_after_steps `{Optim} :
  ∀ calls num_classes num_layers features_start bilinear lr loss_fn' T_max store logger,
    let σ0 := UNetSegModel_init num_classes num_layers features_start bilinear
                lr loss_fn' T_max store logger in
    let σ := run_steps calls σ0 in
    let sch_opt := CosineAnnealingLR (Adam (module_parameters (net σ)) lr) T_max in
    configure_optimizers σ = (inr ([sch_opt.2], [sch_opt.1]), σ) ∧
    net σ0 = UNet num_classes num_layers features_start bilinear.
Proof.
  intros calls nc nl fs bl lr lf tm store lg. cbn. split; [ | done].
  destruct (run_steps_hyperparameters calls
              (UNetSegModel_init nc nl fs bl lr lf tm store lg)) as [Hh _].
  unfold hyperparameters in Hh. cbn in Hh.
  unfold configure_optimizers, get, mbind, M_bind, bind, mret, M_ret, ret.
  injection Hh as Hlr _ Htm _ _ _. by rewrite Hlr, Htm.
Qed.

(** ** The steps do not read [self.submission] *)

Section IgnoresSubmission.
Context `{Torch}.

Lemma ignores_ret {A} (a : A) : ignores_submission (mret a).
Proof. by intros s σ. Qed.

Lemma ignores_raise {A} e : ignores_submission (raise e : M A).
Proof. by intros s σ. Qed.

Lemma ignores_bind {A B} (m : M A) (k : A → M B) :
  ignores_submission m → (∀ a, ignores_submission (k a)) →
  ignores_submission (m ≫= k).
Proof.
  intros Hm Hk s σ. unfold mbind, M_bind, bind. rewrite Hm.
  destruct (m σ) as [[e|a] σ']; cbn; [done | apply Hk].
Qed.

Lemma ignores_get {A} (f : State → A) :
  (∀ s σ, f (set_submission s σ) = f σ) → ignores_submission (get f).
Proof. intros Hf s σ. unfold get. by rewrite Hf. Qed.

Lemma ignores_read r : ignores_submission (read r).
Proof. intros s σ. unfold read. cbn. by destruct (heap σ !! r). Qed.

Lemma ignores_alloc v : ignores_submission (alloc v).
Proof. by intros s σ. Qed.

Lemma ignores_write r v : ignores_submission (write r v).
Proof.
  apply ignores_bind; [apply ignores_read | ]. by intros _ s σ.
Qed.

Lemma ignores_iadd r y : ignores_submission (iadd r y).
Proof.
  apply ignores_bind; [apply ignores_read | intros v; apply ignores_write].
Qed.

Lemma ignores_idiv r n : ignores_submission (idiv r n).
Proof.
  apply ignores_bind; [apply ignores_read | intros v; apply ignores_write].
Qed.

Lemma ignores_tensor_float x : ignores_submission (tensor_float x).
Proof.
  apply ignores_bind; [apply ignores_read | ]. intros v.
  destruct (is_float v); [apply ignores_ret | apply ignores_alloc].
Qed.

Lemma ignores_tensor_long x : ignores_submission (tensor_long x).
Proof.
  apply ignores_bind; [apply ignores_read | ]. intros v.
  destruct (is_long v); [apply ignores_ret | apply ignores_alloc].
Qed.

Lemma ignores_tensor_argmax d x : ignores_submission (tensor_argmax d x).
Proof.
  apply ignores_bind; [apply ignores_read | intros v; apply ignores_alloc].
Qed.

Lemma ignores_forward x : ignores_submission (forward x).
Proof.
  apply ignores_bind; [apply ignores_read | ]. intros v.
  apply ignores_bind; [by apply ignores_get | ]. intros n.
  apply ignores_bind; [by intros s σ | intros _; apply ignores_alloc].
Qed.

Lemma ignores_call_loss_fn out mask : ignores_submission (call_loss_fn out mask).
Proof.
  apply ignores_bind; [apply ignores_read | ]. intros vo.
  apply ignores_bind; [apply ignores_read | ]. intros vm.
  apply ignores_bind; [by apply ignores_get | intros f; apply ignores_alloc].
Qed.

Lemma ignores_log name value : ignores_submission (log name value).
Proof. by intros s σ. Qed.

Lemma ignores_experiment_log d : ignores_submission (experiment_log d).
Proof. by intros s σ. Qed.

Lemma ignores_getitem {A} (l : list A) i : ignores_submission (getitem l i).
Proof.
  unfold getitem. destruct (l !! i); [apply ignores_ret | apply ignores_raise].
Qed.

Lemma ignores_dict_pop {A} (d : gmap string A) key :
  ignores_submission (dict_pop d key).
Proof.
  unfold dict_pop. destruct (d !! key); [apply ignores_ret | apply ignores_raise].
Qed.

Lemma ignores_iou_loop r samples : ignores_submission (iou_loop r samples).
Proof.
  induction samples as [|[_mask _out] rest IH]; cbn; [apply ignores_ret | ].
  apply ignores_bind; [apply ignores_iadd | by intros _].
Qed.

Lemma ignores_training_step batch batch_index :
  ignores_submission (training_step batch batch_index).
Proof.
  unfold training_step.
  apply ignores_bind; [apply ignores_tensor_float | ]. intros img.
  apply ignores_bind; [apply ignores_tensor_long | ]. intros mask.
  apply ignores_bind; [apply ignores_forward | ]. intros out.
  apply ignores_bind; [apply ignores_call_loss_fn | ]. intros loss.
  apply ignores_bind; [apply ignores_log | ]. intros _.
  apply ignores_bind; [by apply ignores_get | ]. intros lg.
  apply ignores_bind; [ | intros _; apply ignores_ret].
  destruct lg as [entries|]; [ | apply ignores_ret].
  apply ignores_bind; [ | intros d; apply ignores_experiment_log].
  case_decide; [ | apply ignores_ret].
  apply ignores_bind; [apply ignores_read | ]. intros vi.
  apply ignores_bind; [apply ignores_read | ]. intros vm.
  apply ignores_bind; [apply ignores_read | ]. intros vo.
  apply ignores_ret.
Qed.

Lemma ignores_validation_step batch batch_idx :
  ignores_submission (validation_step batch batch_idx).
Proof.
  unfold validation_step.
  apply ignores_bind; [apply ignores_tensor_float | ]. intros img.
  apply ignores_bind; [apply ignores_tensor_long | ]. intros mask.
  apply ignores_bind; [apply ignores_forward | ]. intros out.
  apply ignores_bind; [apply ignores_call_loss_fn | ]. intros loss.
  apply ignores_bind; [apply ignores_log | ]. intros _.
  apply ignores_bind; [apply ignores_read | ]. intros vm.
  apply ignores_bind; [apply ignores_read | ]. intros vo.
  apply ignores_bind; [apply ignores_alloc | ]. intros iou_score.
  apply ignores_bind; [apply ignores_iou_loop | ]. intros _.
  apply ignores_bind; [apply ignores_idiv | ]. intros _.
  apply ignores_bind; [apply ignores_log | ]. intros _.
  apply ignores_bind; [by apply ignores_get | ]. intros lg.
  apply ignores_bind; [ | intros _; apply ignores_ret].
  destruct lg as [entries|]; [ | apply ignores_ret].
  apply ignores_bind; [ | intros d; apply ignores_experiment_log].
  case_decide; [ | apply ignores_ret].
  apply ignores_bind; [apply ignores_read | ]. intros vi.
  apply ignores_ret.
Qed.

Lemma ignores_test_step batch batch_idx :
  ignores_submission (test_step batch batch_idx).
Proof.
  unfold test_step.
  apply ignores_bind; [apply ignores_forward | ]. intros out.
  apply ignores_bind; [apply ignores_tensor_argmax | ]. intros predicted_mask.
  apply ignores_bind; [apply ignores_getitem | ]. intros filename_0.
  apply ignores_bind; [apply ignores_getitem | ]. intros team_0.
  apply ignores_bind; [apply ignores_getitem | ]. intros crop_0.
  apply ignores_bind; [apply ignores_read | ]. intros vp.
  apply ignores_bind; [apply ignores_dict_pop | ]. intros popped.
  destruct (popped.1); [apply ignores_ret | apply ignores_raise].
Qed.

Lemma ignores_test_steps batches : ∀ batch_idx,
  ignores_submission (test_steps batches batch_idx).
Proof.
  induction batches as [|b rest IH]; intros batch_idx; cbn; [apply ignores_ret | ].
  apply ignores_bind; [apply ignores_test_step | ]. intros output.
  apply ignores_bind; [apply IH | intros outputs; apply ignores_ret].
Qed.

End IgnoresSubmission.

(** X12. The steps never read [self.submission]: run with another value of
    it, [training_step], [validation_step] and [test_step] return or raise
    the same and leave the same state, but for that value.  So a test pass
    that returns replaces the submission: its result does not depend on
    the submission of an earlier pass, and nothing of it is merged. *)
Theorem steps_ignore_submission `{Torch} (σ : State)
    (s : option (gmap string (gmap string pyval))) :
  (∀ batch batch_index,
     training_step batch batch_index (set_submission s σ)
     = ((training_step batch batch_index σ).1,
        set_submission s (training_step batch batch_index σ).2)) ∧
  (∀ batch batch_idx,
     validation_step batch batch_idx (set_submission s σ)
     = ((validation_step batch batch_idx σ).1,
        set_submission s (validation_step batch batch_idx σ).2)) ∧
  (∀ batch batch_idx,
     test_step batch batch_idx (set_submission s σ)
     = ((test_step batch batch_idx σ).1,
        set_submission s (test_step batch batch_idx σ).2)) ∧
  (∀ batches,
     (test_pass batches (set_submission s σ)).1 = (test_pass batches σ).1 ∧
     ((test_pass batches σ).1 = inr () →
      test_pass batches (set_submission s σ) = test_pass batches σ)).
Proof.
  split_and!.
  - intros batch i. apply ignores_training_step.
  - intros batch i. apply ignores_validation_step.
  - intros batch i. apply ignores_test_step.
  - intros batches. unfold test_pass, mbind, M_bind, bind.
    rewrite (ignores_test_steps batches 0 s σ).
    destruct (test_steps batches 0 σ) as [[e|outputs] σ']; cbn; [done | done].
Qed.

(** ** What the steps log *)

Section Logging.
Context `{Torch}.

(** The loop of [training_step]: the images of the samples, and the
    dictionary with the key set as soon as there is one sample. *)
Lemma training_predictions_fold samples : ∀ mask_list logging_dict,
  foldl training_predictions_body (mask_list, logging_dict) samples
  = (mask_list ++ sample_images samples,
     match samples with
     | [] => logging_dict
     | _ => <["training/predictions" := LImages (mask_list ++ sample_images samples)]>
              logging_dict
     end).
Proof.
  induction samples as [|[_img [_mask _out]] rest IH]; intros ml d; cbn.
  - by rewrite app_nil_r.
  - rewrite IH. rewrite <- app_assoc. cbn. destruct rest as [|sample rest']; [done | ].
    by rewrite insert_insert_eq.
Qed.

Lemma training_predictions_spec samples logging_dict :
  training_predictions samples logging_dict
  = match samples with
    | [] => logging_dict
    | _ => <["training/predictions" := LImages (sample_images samples)]> logging_dict
    end.
Proof.
  unfold training_predictions. rewrite training_predictions_fold. by destruct samples.
Qed.

Lemma validation_predictions_fold samples : ∀ mask_list,
  foldl (λ mask_list '(_img, (_mask, _out)), mask_list ++ [mask_img _img _mask _out])
        mask_list samples
  = mask_list ++ sample_images samples.
Proof.
  induction samples as [|[_img [_mask _out]] rest IH]; intros ml; cbn.
  - by rewrite app_nil_r.
  - rewrite IH. by rewrite <- app_assoc.
Qed.

Lemma validation_predictions_spec samples :
  validation_predictions samples = sample_images samples.
Proof. unfold validation_predictions. by rewrite validation_predictions_fold. Qed.

(** [training_step] returns; what it has logged then. *)
Lemma training_step_logs_wp batch batch_index vi vm σ :
  heap σ !! image batch = Some vi →
  heap σ !! mask batch = Some vm →
  wp (training_step batch batch_index)
     (λ loss σ',
        logged σ' = logged σ ++ [("train_loss", loss)] ∧
        logger σ'
        = (λ entries, entries ++
             [training_logging_dict batch_index loss (logged_samples (net σ) vi vm)])
          <$> logger σ)
     (λ _, False) σ.
Proof.
  intros Hi Hm. unfold training_step.
  apply wp_bind. eapply wp_tensor_float; [done | ]. intros img k1 Himg.
  apply wp_bind. eapply wp_tensor_long; [lk | ]. st. intros msk k2 Hmsk.
  apply wp_bind. eapply wp_forward; [lk | ]. st.
  apply wp_bind. eapply wp_call_loss_fn; [lk | lk | ]. st.
  apply wp_bind, wp_modify. st.
  apply wp_bind, wp_get. st.
  apply wp_bind. unfold training_logging_dict, logged_samples.
  destruct (logger σ) as [entries|] eqn:Hlg.
  - apply wp_bind.
    destruct (decide (batch_index mod 50 = 0)) as [Hmod | Hmod].
    + apply wp_bind. eapply wp_read_Some; [lk | ].
      apply wp_bind. eapply wp_read_Some; [lk | ].
      apply wp_bind. eapply wp_read_Some; [lk | ].
      apply wp_ret, wp_modify, wp_ret. st. rewrite Hlg. st.
      split; [done | ]. rewrite training_predictions_spec.
      destruct (zip3 _ _ _) as [|sample rest] eqn:Hz.
      * rewrite decide_False; [done | ]. by intros [_ ?].
      * by rewrite decide_True.
    + apply wp_ret, wp_modify, wp_ret. st. rewrite Hlg. st.
      split; [done | ]. rewrite decide_False; [done | ]. by intros [? _].
  - apply wp_ret, wp_ret. st. by rewrite Hlg.
Qed.

(** [validation_step] returns; what it has logged then. *)
Lemma validation_step_logs_wp batch batch_idx vi vm σ :
  heap σ !! image batch = Some vi →
  heap σ !! mask batch = Some vm →
  wp (validation_step batch batch_idx)
     (λ loss σ',
        ∃ iou_score,
          loss ≠ iou_score ∧
          length (heap σ) ≤ iou_score ∧
          heap σ' !! iou_score = Some (iou_value vi vm σ) ∧
          logged σ' = logged σ ++ [("val_loss", loss); ("iou", iou_score)] ∧
          logger σ'
          = (λ entries, entries ++
               [validation_logging_dict batch_idx loss iou_score
                  (logged_samples (net σ) vi vm)])
            <$> logger σ)
     (λ _, False) σ.
Proof.
  intros Hi Hm. unfold validation_step.
  apply wp_bind. eapply wp_tensor_float; [done | ]. intros img k1 Himg.
  apply wp_bind. eapply wp_tensor_long; [lk | ]. st. intros msk k2 Hmsk.
  pose proof (lookup_lt_Some _ _ _ Himg) as Himg_lt.
  apply wp_bind. eapply wp_forward; [lk | ]. st.
  apply wp_bind. eapply wp_call_loss_fn; [lk | lk | ]. st.
  apply wp_bind, wp_modify. st.
  apply wp_bind. eapply wp_read_Some; [lk | ].
  apply wp_bind. eapply wp_read_Some; [lk | ].
  apply wp_bind, wp_alloc. st.
  apply wp_bind. eapply wp_iou_loop; [lk | ]. st.
  apply wp_bind. eapply wp_idiv; [lk | ]. st.
  apply wp_bind, wp_modify. st.
  apply wp_bind, wp_get. st.
  apply wp_bind. unfold validation_logging_dict, logged_samples.
  destruct (logger σ) as [entries|] eqn:Hlg.
  - apply wp_bind.
    destruct (decide (batch_idx = 0)) as [Hz | Hz].
    + apply wp_bind. eapply wp_read_Some; [lk | ].
      apply wp_ret, wp_modify, wp_ret. st. rewrite Hlg. st.
      eexists. split_and!;
        [ | | lk | by rewrite <- app_assoc | by rewrite validation_predictions_spec ];
        rewrite !length_app; cbn; lia.
    + apply wp_ret, wp_modify, wp_ret. st. rewrite Hlg. st.
      eexists. split_and!; [ | | lk | by rewrite <- app_assoc | done ];
        rewrite !length_app; cbn; lia.
  - apply wp_ret, wp_ret. st. rewrite Hlg.
    eexists. split_and!; [ | | lk | by rewrite <- app_assoc | done ];
      rewrite !length_app; cbn; lia.
Qed.

End Logging.

(** X6. On a batch whose image and mask are in the store, [training_step]
    returns after exactly one [self.log], of the loss under ["train_loss"].
    With a logger attached it sends exactly one dictionary to the
    experiment: the loss under ["training/loss"] and, when the batch index
    is a multiple of 50 and the batch has at least one sample, one image
    per zipped sample under ["training/predictions"]; no predictions key
    otherwise.  Without a logger it sends nothing. *)
Theorem training_step_logging `{Torch} (σ : State) (batch : TrainBatch)
    (batch_index : nat) (vi vm : Tensor) :
  heap σ !! image batch = Some vi →
  heap σ !! mask batch = Some vm →
  ∃ loss σ',
    training_step batch batch_index σ = (inr loss, σ') ∧
    logged σ' = logged σ ++ [("train_loss", loss)] ∧
    logger σ'
    = (λ entries, entries ++
         [training_logging_dict batch_index loss (logged_samples (net σ) vi vm)])
      <$> logger σ.
Proof.
  intros Hi Hm.
  destruct (wp_returns _ _ _ (training_step_logs_wp batch batch_index vi vm σ Hi Hm))
    as (loss & σ' & Hrun & Hlogged & Hlogger).
  by exists loss, σ'.
Qed.

Lemma training_step_logging_witness :
  ∃ loss σ',
    training_step Example.train_batch 100 Example.model = (inr loss, σ') ∧
    logged σ' = logged Example.model ++ [("train_loss", loss)] ∧
    logger σ'
    = (λ entries, entries ++
         [training_logging_dict 100 loss
            (logged_samples (net Example.model) ExampleOptim.image_value
               ExampleOptim.mask_value)])
      <$> logger Example.model.
Proof.
  apply (training_step_logging Example.model Example.train_batch 100
           ExampleOptim.image_value ExampleOptim.mask_value); reflexivity.
Defined.

(** X7. On a batch whose image and mask are in the store, [validation_step]
    returns, and with a logger attached it sends exactly one dictionary to
    the experiment: the loss under ["validation/loss"], the IoU score under
    ["validation/iou"] and, for the batch of index 0 only, one image per
    zipped sample under ["validation/predictions"] (an empty list when the
    batch has no sample).  Without a logger it sends nothing. *)
Theorem validation_step_logging `{Torch} (σ : State) (batch : TrainBatch)
    (batch_idx : nat) (vi vm : Tensor) :
  heap σ !! image batch = Some vi →
  heap σ !! mask batch = Some vm →
  ∃ loss iou_score σ',
    validation_step batch batch_idx σ = (inr loss, σ') ∧
    logged σ' = logged σ ++ [("val_loss", loss); ("iou", iou_score)] ∧
    logger σ'
    = (λ entries, entries ++
         [validation_logging_dict batch_idx loss iou_score
            (logged_samples (net σ) vi vm)])
      <$> logger σ.
Proof.
  intros Hi Hm.
  destruct (wp_returns _ _ _ (validation_step_logs_wp batch batch_idx vi vm σ Hi Hm))
    as (loss & σ' & Hrun & iou_score & _ & _ & _ & Hlogged & Hlogger).
  by exists loss, iou_score, σ'.
Qed.

Lemma validation_step_logging_witness :
  ∃ loss iou_score σ',
    validation_step Example.train_batch 0 Example.model = (inr loss, σ') ∧
    logged σ' = logged Example.model ++ [("val_loss", loss); ("iou", iou_score)] ∧
    logger σ'
    = (λ entries, entries ++
         [validation_logging_dict 0 loss iou_score
            (logged_samples (net Example.model) ExampleOptim.image_value
               ExampleOptim.mask_value)])
      <$> logger Example.model.
Proof.
  apply (validation_step_logging Example.model Example.train_batch 0
           ExampleOptim.image_value ExampleOptim.mask_value); reflexivity.
Defined.

(** X8. The IoU score of [validation_step] is a tensor object the step
    creates, distinct from the loss it returns and from every object of the
    batch.  When the step returns, its value is the zero tensor of
    [new_zeros], plus the [iou] with [ignore_index] 0 of the argmax over
    dimension 0 of each output against its mask, over the zipped masks and
    outputs, divided by [len(out)]; it is logged under ["iou"], after the
    loss under ["val_loss"]. *)
Theorem validation_step_iou_score `{Torch} (σ : State) (batch : TrainBatch)
    (batch_idx : nat) (vi vm : Tensor) :
  heap σ !! image batch = Some vi →
  heap σ !! mask batch = Some vm →
  ∃ loss iou_score σ',
    validation_step batch batch_idx σ = (inr loss, σ') ∧
    logged σ' = logged σ ++ [("val_loss", loss); ("iou", iou_score)] ∧
    loss ≠ iou_score ∧
    length (heap σ) ≤ iou_score ∧
    heap σ' !! iou_score
    = Some (tensor_div
              (iou_sum (new_zeros (call_module (net σ) (float_value vi)).1)
                 (zip (unbind (long_value vm))
                      (unbind (call_module (net σ) (float_value vi)).1)))
              (length (unbind (call_module (net σ) (float_value vi)).1))).
Proof.
  intros Hi Hm.
  destruct (wp_returns _ _ _ (validation_step_logs_wp batch batch_idx vi vm σ Hi Hm))
    as (loss & σ' & Hrun & iou_score & Hne & Hfresh & Hval & Hlogged & _).
  by exists loss, iou_score, σ'.
Qed.

Lemma validation_step_iou_score_witness :
  ∃ loss iou_score σ',
    validation_step Example.train_batch 3 Example.model = (inr loss, σ') ∧
    logged σ' = logged Example.model ++ [("val_loss", loss); ("iou", iou_score)] ∧
    loss ≠ iou_score ∧
    length (heap Example.model) ≤ iou_score ∧
    heap σ' !! iou_score = Some [[0%Z]].
Proof.
  apply (validation_step_iou_score Example.model Example.train_batch 3
           ExampleOptim.image_value ExampleOptim.mask_value); reflexivity.
Defined.
